(** * The sum visualizer's block-grid layout (the React component [App])

    A shallow embedding of [clearShapes] and [addShapesForEquation], the two
    callbacks of the component that place one textured cube per unit of
    [num1 + num2] into 5x5x5 blocks laid out along X.

    Modelling choices.
    - Positions are JavaScript numbers, that is IEEE-754 binary64 values; they
      are Rocq's primitive [float]s, with the same operations in the same
      order as the source expressions.
    - The operands are the non-negative integers [handleVisualizeClick]
      passes on after [parseInt] and its range check.  Counts, loop indices
      and grid cells are integer-valued numbers; they are [nat], exact for
      every value below 2^53, and enter the position arithmetic through
      [num].
    - A JavaScript object has an identity.  Every [Object3D] carries an
      [id] that stands for it, as the numeric id of three.js does; the state
      holds the next free one.  Only that ids are fresh and pairwise distinct
      is meant: the numbers themselves are not those three.js hands out,
      which also counts the scene, the camera and the helpers of the lights.
    - [Scene.add] appends to the scene's children, [Scene.remove] takes out
      the first child that is the given object.
    - Disposal of geometries, materials and textures frees GPU resources and
      leaves the references in place; it is not part of the state.
    - The six pointer listeners act on a record of what they read and write
      ([Pointer]); pointer coordinates and rotations are floats.
    - The component adds the React state to the refs: the texture flag and
      the two fields, which hold a number or the string typed in the input
      ([Operand]).  A callback made by a render is a function of the values
      that render closed over. *)

From Stdlib Require Import List Arith Bool Lia ZArith NArith.
From Stdlib Require String.
Import String.StringSyntax.
Local Open Scope string_scope.
From Stdlib Require Import PrimFloat Uint63.
From Stdlib Require DecimalFacts DecimalNat.
Import ListNotations.

Set Warnings "-inexact-float".

Local Open Scope nat_scope.

(** ** Data *)

(** A [THREE.Color], by its hexadecimal value. *)
Definition Color : Type := N.

Definition orangeColor : Color := 0xffa500%N.
Definition blueColor : Color := 0x0000ff%N.

Record Vector3 : Type := mkVector3 { vx : float; vy : float; vz : float }.

(** The texture the loader hands to its callback. *)
Record Texture : Type := mkTexture { image : String.string }.

(** A [THREE.Mesh] over a [BoxGeometry] of the given size and a
    [MeshBasicMaterial] with a texture map and a tint. *)
Record Mesh : Type := mkMesh {
  id : nat;
  geometry : float * float * float;
  map_ : Texture;
  color : Color;
  position : Vector3
}.

(** What the scene holds: the three lights of the setup effect and the cubes. *)
Inductive Object3D : Type :=
| AmbientLight (oid : nat)
| DirectionalLight (oid : nat)
| MeshObject (m : Mesh).

Definition objId (o : Object3D) : nat :=
  match o with
  | AmbientLight n => n
  | DirectionalLight n => n
  | MeshObject m => id m
  end.

(** A scene, by its list of children. *)
Definition Scene : Type := list Object3D.

(** The refs of the component: [sceneRef.current], [shapeMeshesRef.current],
    [textureRef.current], and the object counter of three.js. *)
Record State : Type := mkState {
  sceneRef : option Scene;
  shapeMeshesRef : list Mesh;
  textureRef : option Texture;
  nextId : nat
}.

Definition initialState : State :=
  {| sceneRef := None; shapeMeshesRef := []; textureRef := None; nextId := 0 |}.

(** ** three.js scene operations *)

Fixpoint removeChild (n : nat) (children : Scene) : Scene :=
  match children with
  | [] => []
  | o :: rest => if objId o =? n then rest else o :: removeChild n rest
  end.

Definition sceneRemove (m : Mesh) (sc : Scene) : Scene := removeChild (id m) sc.

Definition sceneAdd (m : Mesh) (sc : Scene) : Scene := sc ++ [MeshObject m].

(** ** Constants of [addShapesForEquation] *)

(** The number holding the integer [n]. *)
Definition num (n : nat) : float := of_uint63 (of_Z (Z.of_nat n)).

Definition boxSize : float := 1%float.

(** The literal [1.2] denotes the binary64 value nearest to it, here as in
    JavaScript. *)
Definition spacing : float := 1.2%float.

Definition gridX_dim : nat := 5.
Definition gridY_dim : nat := 5.
Definition gridZ_dim : nat := 5.
Definition maxShapesPerBlock : nat := gridX_dim * gridY_dim * gridZ_dim.

Definition totalShapes (num1 num2 : nat) : nat := num1 + num2.

(** [Math.ceil(a / b)] on non-negative integers. *)
Definition ceilDiv (a b : nat) : nat :=
  if a mod b =? 0 then a / b else S (a / b).

Definition numBlocks (total : nat) : nat := ceilDiv total maxShapesPerBlock.

Definition blockSpacingX : float := (num gridX_dim * spacing + 3)%float.

Definition lastBlockShapes (total : nat) : nat := total mod maxShapesPerBlock.

Definition columnsInLastBlock (total : nat) : nat :=
  if (lastBlockShapes total =? 0) && (0 <? total) then gridX_dim
  else if 0 <? lastBlockShapes total
       then (lastBlockShapes total - 1) mod gridX_dim + 1
       else 0.

Definition totalSceneWidth (total : nat) : float :=
  if 0 <? numBlocks total then
    let w := (num (numBlocks total - 1) * blockSpacingX)%float in
    if 0 <? columnsInLastBlock total
    then (w + (num (columnsInLastBlock total - 1) * spacing + boxSize))%float
    else w
  else 0%float.

Definition overallStartX (total : nat) : float :=
  (- totalSceneWidth total / 2)%float.

(** ** The body of the loop, for the index [i] *)

Definition shapeColor (num1 i : nat) : Color :=
  if i <? num1 then orangeColor else blueColor.

Definition currentBlockIndex (i : nat) : nat := i / maxShapesPerBlock.
Definition indexInBlock (i : nat) : nat := i mod maxShapesPerBlock.

Definition xInBlock (i : nat) : nat := indexInBlock i mod gridX_dim.
Definition yInBlock (i : nat) : nat := (indexInBlock i / gridX_dim) mod gridY_dim.
Definition zInBlock (i : nat) : nat := indexInBlock i / (gridX_dim * gridY_dim).

Definition blockCenterOffsetX : float := (num (gridX_dim - 1) * spacing / 2)%float.
Definition blockCenterOffsetY : float := (num (gridY_dim - 1) * spacing / 2)%float.
Definition blockCenterOffsetZ : float := (num (gridZ_dim - 1) * spacing / 2)%float.

Definition finalX (total i : nat) : float :=
  (overallStartX total + num (currentBlockIndex i) * blockSpacingX
   + num (xInBlock i) * spacing - blockCenterOffsetX)%float.
Definition finalY (i : nat) : float :=
  (num (yInBlock i) * spacing - blockCenterOffsetY)%float.
Definition finalZ (i : nat) : float :=
  (num (zInBlock i) * spacing - blockCenterOffsetZ)%float.

Definition newShape (tex : Texture) (num1 total n i : nat) : Mesh :=
  {| id := n;
     geometry := (boxSize, boxSize, boxSize);
     map_ := tex;
     color := shapeColor num1 i;
     position := mkVector3 (finalX total i) (finalY i) (finalZ i) |}.

(** One iteration: build the mesh, add it to the scene, push it on the ref. *)
Definition loopBody (tex : Texture) (num1 total : nat) (st : State) (i : nat) : State :=
  let m := newShape tex num1 total (nextId st) i in
  {| sceneRef := option_map (sceneAdd m) (sceneRef st);
     shapeMeshesRef := shapeMeshesRef st ++ [m];
     textureRef := textureRef st;
     nextId := S (nextId st) |}.

(** ** The callbacks *)

Definition clearShapes (st : State) : State :=
  match sceneRef st with
  | None => st
  | Some sc =>
      {| sceneRef := Some (fold_left (fun s m => sceneRemove m s) (shapeMeshesRef st) sc);
         shapeMeshesRef := [];
         textureRef := textureRef st;
         nextId := nextId st |}
  end.

(** [textureLoaded] is the React state the callback closed over. *)
Definition addShapesForEquation (textureLoaded : bool) (num1 num2 : nat) (st : State) : State :=
  let st1 := clearShapes st in
  match sceneRef st1, textureLoaded, textureRef st1 with
  | Some _, true, Some tex =>
      let total := totalShapes num1 num2 in
      fold_left (loopBody tex num1 total) (seq 0 total) st1
  | _, _, _ => st1
  end.

(** The guard of [addShapesForEquation] lets the call through. *)
Definition ready (textureLoaded : bool) (st : State) : bool :=
  match sceneRef st, textureRef st with
  | Some _, Some _ => textureLoaded
  | _, _ => false
  end.

(** ** The setup effect and its cleanup *)

Definition effectSetup (st : State) : State :=
  let n := nextId st in
  {| sceneRef := Some [AmbientLight n; DirectionalLight (n + 1); DirectionalLight (n + 2)];
     shapeMeshesRef := shapeMeshesRef st;
     textureRef := textureRef st;
     nextId := n + 3 |}.

Definition onTextureLoad (tex : Texture) (st : State) : State :=
  {| sceneRef := sceneRef st;
     shapeMeshesRef := shapeMeshesRef st;
     textureRef := Some tex;
     nextId := nextId st |}.

Definition effectCleanup (st : State) : State :=
  let st1 := clearShapes st in
  {| sceneRef := sceneRef st1;
     shapeMeshesRef := [];
     textureRef := textureRef st1;
     nextId := nextId st1 |}.

(** What the component can do to its refs.  React runs the setup of an
    effect on mount and after the cleanup of its previous run, so with the
    ref empty. *)
Inductive step : State -> State -> Prop :=
| step_setup st : shapeMeshesRef st = [] -> step st (effectSetup st)
| step_cleanup st : step st (effectCleanup st)
| step_texture tex st : step st (onTextureLoad tex st)
| step_clear st : step st (clearShapes st)
| step_add tl num1 num2 st : step st (addShapesForEquation tl num1 num2 st).

Inductive reachable : State -> Prop :=
| reach_init : reachable initialState
| reach_step st st' : reachable st -> step st st' -> reachable st'.

(** ** The layout as data *)

(** A unit of the layout: the tint and the position of a cube. *)
Definition unitOf (m : Mesh) : Color * Vector3 := (color m, position m).

Definition layoutOf (st : State) : list (Color * Vector3) :=
  map unitOf (shapeMeshesRef st).

Definition sceneMeshes (sc : Scene) : list Mesh :=
  flat_map (fun o => match o with MeshObject m => [m] | _ => [] end) sc.


Definition sceneLights (sc : Scene) : Scene :=
  filter (fun o => match o with MeshObject _ => false | _ => true end) sc.

(** The scene once every mesh of [ms] has been taken out of it. *)
Definition clearedScene (ms : list Mesh) (sc : Scene) : Scene :=
  fold_left (fun s m => sceneRemove m s) ms sc.

(** The meshes the loop builds when it runs [n] times from index [a] with
    the object counter at [base]. *)
Definition newShapes (tex : Texture) (num1 total base a n : nat) : list Mesh :=
  map (fun k => newShape tex num1 total (base + k) (a + k)) (seq 0 n).

(** The units of the loop, index by index: what the layout is once the
    texture, the object counter and the refs are left out. *)
Definition computeLayout (num1 num2 : nat) : list (Color * Vector3) :=
  map (fun i => (shapeColor num1 i,
                 mkVector3 (finalX (num1 + num2) i) (finalY i) (finalZ i)))
      (seq 0 (num1 + num2)).

(** The indices of [0, total) that fall in block [b]. *)
Definition unitsOfBlock (total b : nat) : list nat :=
  filter (fun i => currentBlockIndex i =? b) (seq 0 total).

(** Where the cell [(x, y, z)] of block [b] is, in a layout of [total]
    units. *)
Definition cellPosition (total b x y z : nat) : Vector3 :=
  mkVector3
    (overallStartX total + num b * blockSpacingX + num x * spacing
     - blockCenterOffsetX)%float
    (num y * spacing - blockCenterOffsetY)%float
    (num z * spacing - blockCenterOffsetZ)%float.

(** The meshes of the ref, each with its place in the order of emission. *)
Definition placed (ms : list Mesh) : list (nat * Mesh) :=
  combine (seq 0 (length ms)) ms.

(** The emitted meshes the loop puts in block [b]. *)
Definition meshesOfBlock (b : nat) (ms : list Mesh) : list (nat * Mesh) :=
  filter (fun im => currentBlockIndex (fst im) =? b) (placed ms).

(** X coordinates of a layout, in emission order. *)
Definition xCoordinates (l : list (Color * Vector3)) : list float :=
  map (fun u => vx (snd u)) l.

(** For every value [v] in the list, [-v] is in the list too. *)
Definition symmetricAboutZero (xs : list float) : Prop :=
  forall v, In v xs -> In (- v)%float xs.

(** ** What holds of the refs in every state the component reaches *)

(** The scene, when there is one, holds exactly the meshes of the ref, every
    object once, all of them older than the counter; without a scene the ref
    is empty. *)
Definition Inv (st : State) : Prop :=
  match sceneRef st with
  | None => shapeMeshesRef st = []
  | Some sc =>
      sceneMeshes sc = shapeMeshesRef st /\
      NoDup (map objId sc) /\
      Forall (fun o => objId o < nextId st) sc
  end.

(** The refs once the setup effect has run and the texture has arrived. *)
Definition mountedState : State :=
  onTextureLoad (mkTexture ("/NEWPIC.jpg" : String.string)) (effectSetup initialState).

(** The same, showing the default sum 7 + 9. *)
Definition shownState : State := addShapesForEquation true 7 9 mountedState.

(** ** The closed form of the specification

    The cell and position formulas as the specification words them (section
    4.1, steps 1 and 2), over its own constants, for a layout of at least
    one unit.  Nothing here refers to the definitions taken from the source. *)
Module Spec.

Definition gridX : nat := 5.
Definition gridZ : nat := 5.
Definition blockCapacity : nat := 125.
Definition spacing : float := 1.2%float.
Definition blockGap : float := 3%float.
Definition unitSize : float := 1%float.

(** [ceil(total / blockCapacity)]. *)
Definition blockCount (total : nat) : nat :=
  (total + (blockCapacity - 1)) / blockCapacity.

Definition indexInBlock (i : nat) : nat := i mod blockCapacity.
Definition zCell (i : nat) : nat := indexInBlock i / 25.

Definition blockSpacingX : float := (num gridX * spacing + blockGap)%float.

(** Step (f) derives the count from [total mod blockCapacity] and gives the
    case of a remainder of zero in full; for a remainder [r] above zero the
    count is the column, counted from one, in which the [r]-th unit of a
    block stands, a row being filled along X first (section 9). *)
Definition columnsInLastBlock (total : nat) : nat :=
  let r := total mod blockCapacity in
  if r =? 0 then (if 0 <? total then gridX else 0)
  else (r - 1) mod gridX + 1.

(** [(columnsInLastBlock - 1) * spacing + unitSize]. *)
Definition lastBlockWidth (total : nat) : float :=
  (num (columnsInLastBlock total - 1) * spacing + unitSize)%float.

(** The blocks before the last, one block spacing each, and the occupied
    width of the last block. *)
Definition totalSceneWidth (total : nat) : float :=
  (num (blockCount total - 1) * blockSpacingX + lastBlockWidth total)%float.

Definition overallStartX (total : nat) : float :=
  (- totalSceneWidth total / 2)%float.


Definition Z (i : nat) : float :=
  (num (zCell i) * spacing - num (gridZ - 1) * spacing / 2)%float.

End Spec.

(** The shape of the scene: an ambient light and two directional lights,
    then the meshes of the ref. *)
Definition sceneShape (st : State) : Prop :=
  match sceneRef st with
  | None => True
  | Some sc =>
      exists a b c,
        sc = [AmbientLight a; DirectionalLight b; DirectionalLight c]
             ++ map MeshObject (shapeMeshesRef st)
  end.

(** ** Single-block layouts, by cell

    The X coordinate of the cube in column [x] when the layout has one block
    whose last cube is in column [c - 1]: [finalX] with [numBlocks = 1],
    [currentBlockIndex = 0] and [columnsInLastBlock = c]. *)
Definition rowX (c x : nat) : float :=
  (- (num 0 * blockSpacingX + (num (c - 1) * spacing + boxSize)) / 2
   + num 0 * blockSpacingX + num x * spacing - blockCenterOffsetX)%float.

(** The Y (and Z) coordinate of the cubes of row (layer) [k]. *)
Definition rowY (k : nat) : float :=
  (num k * spacing - blockCenterOffsetY)%float.

(** ** Dragging the scene with the mouse or a finger

    What the six listeners of the canvas read and write:
    [renderer.xr.isPresenting], [isDragging.current],
    [previousMousePosition.current], and the X and Y rotation of the scene
    in [sceneRef.current] (none without a scene). *)
Record Pointer : Type := mkPointer {
  isPresenting : bool;
  isDragging : bool;
  previousMousePosition : float * float;
  sceneRotation : option (float * float)
}.

(** The body shared by [onMouseMove] and [onTouchMove]: a horizontal move
    turns the scene about Y, a vertical one about X. *)
Definition dragTo (clientX clientY : float) (p : Pointer) : Pointer :=
  let deltaMoveX := (clientX - fst (previousMousePosition p))%float in
  let deltaMoveY := (clientY - snd (previousMousePosition p))%float in
  {| isPresenting := isPresenting p;
     isDragging := isDragging p;
     previousMousePosition := (clientX, clientY);
     sceneRotation :=
       option_map (fun r => (fst r + deltaMoveY * 0.005, snd r + deltaMoveX * 0.005)%float)
                  (sceneRotation p) |}.

Definition pressAt (clientX clientY : float) (p : Pointer) : Pointer :=
  {| isPresenting := isPresenting p;
     isDragging := true;
     previousMousePosition := (clientX, clientY);
     sceneRotation := sceneRotation p |}.

Definition release (p : Pointer) : Pointer :=
  {| isPresenting := isPresenting p;
     isDragging := false;
     previousMousePosition := previousMousePosition p;
     sceneRotation := sceneRotation p |}.

Definition onMouseDown (clientX clientY : float) (p : Pointer) : Pointer :=
  if negb (isPresenting p) then pressAt clientX clientY p else p.

Definition onMouseUp (p : Pointer) : Pointer :=
  if negb (isPresenting p) then release p else p.

Definition onMouseMove (clientX clientY : float) (p : Pointer) : Pointer :=
  if negb (isPresenting p) && isDragging p then dragTo clientX clientY p else p.

Definition onTouchStart (touches : list (float * float)) (p : Pointer) : Pointer :=
  if negb (isPresenting p) && (length touches =? 1)
  then match touches with
       | t :: _ => pressAt (fst t) (snd t) p
       | [] => p
       end
  else p.

Definition onTouchEnd (p : Pointer) : Pointer :=
  if negb (isPresenting p) then release p else p.

Definition onTouchMove (touches : list (float * float)) (p : Pointer) : Pointer :=
  if negb (isPresenting p) && isDragging p && (length touches =? 1)
  then match touches with
       | t :: _ => dragTo (fst t) (snd t) p
       | [] => p
       end
  else p.

Inductive PointerEvent : Type :=
| MouseDown (clientX clientY : float)
| MouseUp
| MouseMove (clientX clientY : float)
| TouchStart (touches : list (float * float))
| TouchEnd
| TouchMove (touches : list (float * float)).

Definition dispatch (p : Pointer) (e : PointerEvent) : Pointer :=
  match e with
  | MouseDown x y => onMouseDown x y p
  | MouseUp => onMouseUp p
  | MouseMove x y => onMouseMove x y p
  | TouchStart ts => onTouchStart ts p
  | TouchEnd => onTouchEnd p
  | TouchMove ts => onTouchMove ts p
  end.

(** A mouse button going down, or a touch starting with one finger. *)
Definition isPress (e : PointerEvent) : bool :=
  match e with
  | MouseDown _ _ => true
  | TouchStart ts => length ts =? 1
  | _ => false
  end.

(** What reaches the canvas and the renderer: a pointer event, or a VR
    session starting ([xr.setSession] in [enterVR]) or ending (its [end]
    event), which raises and lowers [renderer.xr.isPresenting]. *)
Inductive CanvasEvent : Type :=
| Pointing (e : PointerEvent)
| SessionStart
| SessionEnd.

Definition setPresenting (presenting : bool) (p : Pointer) : Pointer :=
  {| isPresenting := presenting;
     isDragging := isDragging p;
     previousMousePosition := previousMousePosition p;
     sceneRotation := sceneRotation p |}.

Definition handle (p : Pointer) (e : CanvasEvent) : Pointer :=
  match e with
  | Pointing e => dispatch p e
  | SessionStart => setPresenting true p
  | SessionEnd => setPresenting false p
  end.

Definition isPressEvent (e : CanvasEvent) : bool :=
  match e with
  | Pointing e => isPress e
  | _ => false
  end.

(** ** Operands as the component state holds them

    [number1] and [number2] start as the numbers 7 and 9 and become the
    string of the input field once the user types.  Strings are taken over
    the alphabet of a minus sign and the ten digits, which is enough to write
    every integer; numbers computed from them are [NaN] ([None]) or an
    integer.  A string with a fraction, an exponent or a plus sign, which an
    input of type number can also deliver, is outside the model. *)
Inductive Digit : Type := d0 | d1 | d2 | d3 | d4 | d5 | d6 | d7 | d8 | d9.

Inductive Sym : Type := Minus | Dig (d : Digit).

Definition JSString : Type := list Sym.

Inductive Operand : Type :=
| OpNumber (n : nat)
| OpString (s : JSString).

Definition digitValue (d : Digit) : nat :=
  match d with
  | d0 => 0 | d1 => 1 | d2 => 2 | d3 => 3 | d4 => 4
  | d5 => 5 | d6 => 6 | d7 => 7 | d8 => 8 | d9 => 9
  end.

(** The value of a run of digits read after the value [acc]. *)
Fixpoint digitsValue (acc : nat) (ds : list Digit) : nat :=
  match ds with
  | [] => acc
  | d :: rest => digitsValue (10 * acc + digitValue d) rest
  end.

Fixpoint digitsOfUint (u : Decimal.uint) : list Digit :=
  match u with
  | Decimal.Nil => []
  | Decimal.D0 u => d0 :: digitsOfUint u
  | Decimal.D1 u => d1 :: digitsOfUint u
  | Decimal.D2 u => d2 :: digitsOfUint u
  | Decimal.D3 u => d3 :: digitsOfUint u
  | Decimal.D4 u => d4 :: digitsOfUint u
  | Decimal.D5 u => d5 :: digitsOfUint u
  | Decimal.D6 u => d6 :: digitsOfUint u
  | Decimal.D7 u => d7 :: digitsOfUint u
  | Decimal.D8 u => d8 :: digitsOfUint u
  | Decimal.D9 u => d9 :: digitsOfUint u
  end.

(** [String(n)] for a non-negative integer: its decimal digits. *)
Definition numberToString (n : nat) : JSString :=
  map Dig (digitsOfUint (Nat.to_uint n)).

(** The longest run of digits a string starts with. *)
Fixpoint leadingDigits (s : JSString) : list Digit :=
  match s with
  | Dig d :: rest => d :: leadingDigits rest
  | _ => []
  end.

(** The digits of a string made of digits only. *)
Fixpoint allDigits (s : JSString) : option (list Digit) :=
  match s with
  | [] => Some []
  | Dig d :: rest => option_map (cons d) (allDigits rest)
  | Minus :: _ => None
  end.

(** [Number(s)]: the empty string is 0; otherwise an optional minus sign and
    at least one digit, and nothing else. *)
Definition stringToNumber (s : JSString) : option Z :=
  match s with
  | [] => Some 0%Z
  | Minus :: rest =>
      match allDigits rest with
      | Some (d :: ds) => Some (- Z.of_nat (digitsValue 0 (d :: ds)))%Z
      | _ => None
      end
  | _ =>
      match allDigits s with
      | Some ds => Some (Z.of_nat (digitsValue 0 ds))
      | None => None
      end
  end.

(** [parseInt(s)]: an optional minus sign, then the digits up to the first
    symbol that is not one; [NaN] when there is no digit. *)
Definition parseIntString (s : JSString) : option Z :=
  match s with
  | Minus :: rest =>
      match leadingDigits rest with
      | [] => None
      | ds => Some (- Z.of_nat (digitsValue 0 ds))%Z
      end
  | _ =>
      match leadingDigits s with
      | [] => None
      | ds => Some (Z.of_nat (digitsValue 0 ds))
      end
  end.

Definition toString (v : Operand) : JSString :=
  match v with
  | OpNumber n => numberToString n
  | OpString s => s
  end.

Definition toNumber (v : Operand) : option Z :=
  match v with
  | OpNumber n => Some (Z.of_nat n)
  | OpString s => stringToNumber s
  end.

Definition parseInt (v : Operand) : option Z := parseIntString (toString v).

(** The operator [+]: a sum of two numbers, a concatenation otherwise. *)
Definition jsPlus (a b : Operand) : Operand :=
  match a, b with
  | OpNumber x, OpNumber y => OpNumber (x + y)
  | _, _ => OpString (toString a ++ toString b)
  end.

(** How many [i = 0, 1, ...] satisfy [i < x]. *)
Definition countBelow (x : option Z) : nat :=
  match x with
  | Some z => Z.to_nat z
  | None => 0
  end.

(** [addShapesForEquation] on operands as they come, without [parseInt]:
    [totalShapes] is [num1 + num2] by [jsPlus], and the comparisons and the
    arithmetic of the loop read it, and [num1], as numbers. *)
Definition addShapesForEquationOf (textureLoaded : bool) (num1 num2 : Operand)
    (st : State) : State :=
  let st1 := clearShapes st in
  match sceneRef st1, textureLoaded, textureRef st1 with
  | Some _, true, Some tex =>
      let total := countBelow (toNumber (jsPlus num1 num2)) in
      fold_left (loopBody tex (countBelow (toNumber num1)) total) (seq 0 total) st1
  | _, _, _ => st1
  end.

(** ** The component *)

Record Component : Type := mkComponent {
  refs : State;
  textureLoadedState : bool;
  number1 : Operand;
  number2 : Operand
}.

Definition initialComponent : Component :=
  {| refs := initialState; textureLoadedState := false;
     number1 := OpNumber 7; number2 := OpNumber 9 |}.

Definition withRefs (st : State) (c : Component) : Component :=
  {| refs := st; textureLoadedState := textureLoadedState c;
     number1 := number1 c; number2 := number2 c |}.

(** The setup effect, run on mount and again, after its cleanup, whenever
    [number1], [number2] or [addShapesForEquation] (that is [textureLoaded])
    changed.  On mount the cleanup has nothing to do. *)
Definition runEffect (c : Component) : Component :=
  withRefs (effectSetup (effectCleanup (refs c))) c.

(** The success callback of the texture loader.  The callback belongs to
    the render whose effect started the load: it calls that render's
    [addShapesForEquation], which closed over that render's [textureLoaded],
    on that render's [number1] and [number2]. *)
Definition loaderOnLoad (capturedTextureLoaded : bool) (captured1 captured2 : Operand)
    (tex : Texture) (c : Component) : Component :=
  {| refs := addShapesForEquationOf capturedTextureLoaded captured1 captured2
               (onTextureLoad tex (refs c));
     textureLoadedState := true;
     number1 := number1 c;
     number2 := number2 c |}.

Definition loadFailedMessage : String.string :=
  "Failed to load image: NEWPIC.jpg. Please ensure it's in the 'public' folder.".

Definition loaderOnError (c : Component) : Component * String.string :=
  ({| refs := refs c; textureLoadedState := false;
      number1 := number1 c; number2 := number2 c |},
   loadFailedMessage).

(** [onChange] of the two inputs. *)
Definition setNumber1 (value : JSString) (c : Component) : Component :=
  {| refs := refs c; textureLoadedState := textureLoadedState c;
     number1 := OpString value; number2 := number2 c |}.

Definition setNumber2 (value : JSString) (c : Component) : Component :=
  {| refs := refs c; textureLoadedState := textureLoadedState c;
     number1 := number1 c; number2 := OpString value |}.

Definition invalidNumbersMessage : String.string :=
  "Please enter valid non-negative numbers.".

Definition stillLoadingMessage : String.string :=
  "Image texture is still loading or failed to load. Please wait or check console for errors.".

(** The click on the button: the component afterwards and the alert shown,
    if any.  The handler is made anew by every render, so it sees the
    current [textureLoaded] and calls the [addShapesForEquation] that closed
    over the same value. *)
Definition handleVisualizeClick (c : Component) : Component * option String.string :=
  match parseInt (number1 c), parseInt (number2 c) with
  | Some num1, Some num2 =>
      if (num1 <? 0)%Z || (num2 <? 0)%Z
      then (c, Some invalidNumbersMessage)
      else if textureLoadedState c
           then (withRefs (addShapesForEquation (textureLoadedState c)
                             (Z.to_nat num1) (Z.to_nat num2) (refs c)) c,
                 None)
           else (c, Some stillLoadingMessage)
  | _, _ => (c, Some invalidNumbersMessage)
  end.

(** What happens to the component.  A load can only end after the effect
    that started it has set up a scene. *)
Inductive cstep : Component -> Component -> Prop :=
| cstep_effect c : cstep c (runEffect c)
| cstep_load tl v1 v2 tex c :
    sceneRef (refs c) <> None -> cstep c (loaderOnLoad tl v1 v2 tex c)
| cstep_error c : cstep c (fst (loaderOnError c))
| cstep_set1 value c : cstep c (setNumber1 value c)
| cstep_set2 value c : cstep c (setNumber2 value c)
| cstep_click c : cstep c (fst (handleVisualizeClick c)).

Inductive creachable : Component -> Prop :=
| creach_init : creachable initialComponent
| creach_step c c' : creachable c -> cstep c c' -> creachable c'.

(** The first mount: the effect of the first render, the end of its load,
    the effect of the render that follows [setTextureLoaded(true)], and the
    end of the second load. *)
Definition afterFirstLoad (tex : Texture) : Component :=
  loaderOnLoad false (OpNumber 7) (OpNumber 9) tex (runEffect initialComponent).

Definition afterSecondLoad (tex tex' : Texture) : Component :=
  loaderOnLoad true (OpNumber 7) (OpNumber 9) tex' (runEffect (afterFirstLoad tex)).

(** The component once mounted, the picture loaded and the default sum
    shown. *)
Definition shownComponent : Component :=
  afterSecondLoad (mkTexture "/NEWPIC.jpg") (mkTexture "/NEWPIC.jpg").

(** The literal of [spacing], bit for bit. *)
Lemma spacing_binary64 : spacing = 0x1.3333333333333p+0%float.
Proof. reflexivity. Qed.

(** The constants of the layout, evaluated. *)
Lemma layout_constants :
  blockSpacingX = 9%float /\
  blockCenterOffsetX = 2.3999999999999999%float /\
  blockCenterOffsetY = blockCenterOffsetX /\
  blockCenterOffsetZ = blockCenterOffsetX.
Proof. repeat split; reflexivity. Qed.

(** ** The loop, in closed form *)


Lemma newShapes_S tex num1 total base a n :
  newShapes tex num1 total base a (S n) =
  newShape tex num1 total base a :: newShapes tex num1 total (S base) (S a) n.
Proof.
  unfold newShapes. cbn [seq map]. rewrite !Nat.add_0_r. f_equal.
  rewrite <- seq_shift, map_map. apply map_ext. intros k.
  now rewrite !Nat.add_succ_r.
Qed.

Lemma newShapes_length tex num1 total base a n :
  length (newShapes tex num1 total base a n) = n.
Proof. unfold newShapes. now rewrite length_map, length_seq. Qed.

Lemma newShapes_nth tex num1 total base a n i :
  i < n ->
  nth_error (newShapes tex num1 total base a n) i =
  Some (newShape tex num1 total (base + i) (a + i)).
Proof.
  intros Hi. unfold newShapes.
  rewrite nth_error_map, nth_error_seq.
  apply Nat.ltb_lt in Hi. now rewrite Hi.
Qed.

Lemma newShapes_In tex num1 total base a n m :
  In m (newShapes tex num1 total base a n) ->
  exists k, k < n /\ m = newShape tex num1 total (base + k) (a + k).
Proof.
  unfold newShapes. rewrite in_map_iff. intros (k & <- & Hk).
  apply in_seq in Hk. exists k. split; [lia | reflexivity].
Qed.

Lemma loop_closed_form tex num1 total n : forall a st,
  fold_left (loopBody tex num1 total) (seq a n) st =
  {| sceneRef :=
       option_map
         (fun sc => sc ++ map MeshObject (newShapes tex num1 total (nextId st) a n))
         (sceneRef st);
     shapeMeshesRef := shapeMeshesRef st ++ newShapes tex num1 total (nextId st) a n;
     textureRef := textureRef st;
     nextId := nextId st + n |}.
Proof.
  induction n as [|n IH]; intros a st.
  - destruct st as [[sc|] ms t k]; cbn; now rewrite ?app_nil_r, Nat.add_0_r.
  - cbn [seq fold_left]. rewrite IH, newShapes_S.
    destruct st as [[sc|] ms t k]; cbn [loopBody sceneRef shapeMeshesRef textureRef
      nextId option_map sceneAdd map];
      unfold sceneAdd; rewrite <- ?app_assoc; cbn [app];
      f_equal; try reflexivity; lia.
Qed.

Lemma ready_inv tl st :
  ready tl st = true ->
  exists sc tex, sceneRef st = Some sc /\ textureRef st = Some tex /\ tl = true.
Proof.
  unfold ready. destruct (sceneRef st) as [sc|]; [|discriminate].
  destruct (textureRef st) as [tex|]; [|discriminate].
  intros ->. now exists sc, tex.
Qed.


Lemma addShapes_ready tl num1 num2 st sc tex :
  sceneRef st = Some sc -> textureRef st = Some tex -> tl = true ->
  addShapesForEquation tl num1 num2 st =
  let ms := newShapes tex num1 (num1 + num2) (nextId st) 0 (num1 + num2) in
  {| sceneRef := Some (clearedScene (shapeMeshesRef st) sc ++ map MeshObject ms);
     shapeMeshesRef := ms;
     textureRef := Some tex;
     nextId := nextId st + (num1 + num2) |}.
Proof.
  intros Hsc Htex ->. unfold addShapesForEquation, clearShapes, totalShapes.
  rewrite Hsc. cbn [sceneRef textureRef]. rewrite Htex.
  rewrite loop_closed_form. reflexivity.
Qed.

Lemma addShapes_not_ready tl num1 num2 st :
  ready tl st = false -> addShapesForEquation tl num1 num2 st = clearShapes st.
Proof.
  unfold ready, addShapesForEquation, clearShapes.
  destruct (sceneRef st) as [sc|] eqn:Hsc; cbn [sceneRef textureRef].
  - destruct (textureRef st) as [tex|]; [intros ->|intros _; destruct tl]; reflexivity.
  - intros _. now rewrite Hsc.
Qed.

(** The meshes on the ref after a call that passes the guard. *)
Lemma addShapes_meshes tl num1 num2 st :
  ready tl st = true ->
  exists tex, textureRef st = Some tex /\
    shapeMeshesRef (addShapesForEquation tl num1 num2 st) =
    newShapes tex num1 (num1 + num2) (nextId st) 0 (num1 + num2).
Proof.
  intros Hr. destruct (ready_inv _ _ Hr) as (sc & tex & Hsc & Htex & Htl).
  exists tex. split; [assumption|].
  now rewrite (addShapes_ready _ _ _ _ _ _ Hsc Htex Htl).
Qed.


Lemma addShapes_layout tl num1 num2 st :
  ready tl st = true ->
  layoutOf (addShapesForEquation tl num1 num2 st) = computeLayout num1 num2.
Proof.
  intros Hr. destruct (addShapes_meshes _ num1 num2 _ Hr) as (tex & _ & Hms).
  unfold layoutOf. rewrite Hms.
  unfold newShapes, computeLayout. rewrite map_map.
  apply map_ext. intros k. reflexivity.
Qed.

(** ** Taking meshes out of a scene *)

Lemma sceneMeshes_app sc1 sc2 :
  sceneMeshes (sc1 ++ sc2) = sceneMeshes sc1 ++ sceneMeshes sc2.
Proof. apply flat_map_app. Qed.

Lemma sceneMeshes_MeshObject ms : sceneMeshes (map MeshObject ms) = ms.
Proof. induction ms as [|m ms IH]; cbn; [reflexivity | now f_equal]. Qed.

Lemma sceneLights_MeshObject ms : sceneLights (map MeshObject ms) = [].
Proof. induction ms as [|m ms IH]; cbn; [reflexivity | assumption]. Qed.

Lemma sceneMeshes_In m sc : In m (sceneMeshes sc) <-> In (MeshObject m) sc.
Proof.
  unfold sceneMeshes. rewrite in_flat_map. split.
  - intros ([n|n|m'] & Ho & Hm); cbn in Hm; try contradiction.
    destruct Hm as [->|[]]. assumption.
  - intros H. exists (MeshObject m). split; [assumption | now left].
Qed.

Lemma removeChild_incl n sc o : In o (removeChild n sc) -> In o sc.
Proof.
  induction sc as [|o' sc IH]; cbn; [tauto|].
  destruct (objId o' =? n); cbn; intuition.
Qed.

Lemma removeChild_NoDup n sc :
  NoDup (map objId sc) -> NoDup (map objId (removeChild n sc)).
Proof.
  induction sc as [|o sc IH]; cbn; intros H; [assumption|].
  inversion H as [|? ? Hnotin Hnd]; subst.
  destruct (objId o =? n); cbn; [assumption|].
  constructor; [|auto].
  rewrite in_map_iff in *. intros (o' & Heq & Hin).
  apply Hnotin. exists o'. split; [assumption|]. eapply removeChild_incl; eauto.
Qed.

Lemma removeChild_Forall (P : Object3D -> Prop) n sc :
  Forall P sc -> Forall P (removeChild n sc).
Proof.
  rewrite !Forall_forall. intros H o Ho. apply H. eapply removeChild_incl; eauto.
Qed.

(** Removing the first mesh of a scene whose objects are pairwise distinct
    leaves the other meshes and every light. *)
Lemma sceneRemove_first m rest sc :
  NoDup (map objId sc) ->
  sceneMeshes sc = m :: rest ->
  sceneMeshes (sceneRemove m sc) = rest /\
  sceneLights (sceneRemove m sc) = sceneLights sc.
Proof.
  unfold sceneRemove.
  induction sc as [|o sc IH]; cbn [sceneMeshes flat_map]; intros Hnd Hms;
    [discriminate|].
  inversion Hnd as [|? ? Hnotin Hnd']; subst.
  assert (Hlight : (forall n, o = AmbientLight n \/ o = DirectionalLight n ->
            sceneMeshes sc = m :: rest ->
            sceneMeshes (removeChild (id m) (o :: sc)) = rest /\
            sceneLights (removeChild (id m) (o :: sc)) = sceneLights (o :: sc))).
  { intros n Ho Hsc.
    assert (Hne : (objId o =? id m) = false).
    { apply Nat.eqb_neq. intros Heq. apply Hnotin. rewrite Heq.
      apply (in_map objId _ (MeshObject m)). apply sceneMeshes_In.
      rewrite Hsc. now left. }
    cbn [removeChild]. rewrite Hne.
    destruct (IH Hnd' Hsc) as [IH1 IH2].
    destruct Ho as [-> | ->]; cbn [sceneMeshes flat_map sceneLights filter app];
      fold (sceneMeshes (removeChild (id m) sc));
      fold (sceneLights (removeChild (id m) sc)); fold (sceneLights sc);
      rewrite IH1, IH2; split; reflexivity. }
  destruct o as [n|n|m0].
  - apply (Hlight n); [now left | exact Hms].
  - apply (Hlight n); [now right | exact Hms].
  - cbn [app] in Hms. injection Hms as -> Hrest.
    cbn [removeChild objId]. rewrite Nat.eqb_refl.
    split; [exact Hrest | reflexivity].
Qed.

(** [clearShapes] on a scene that starts with the meshes of the ref. *)
Lemma clearedScene_spec ms : forall sc rest,
  NoDup (map objId sc) ->
  sceneMeshes sc = ms ++ rest ->
  sceneMeshes (clearedScene ms sc) = rest /\
  sceneLights (clearedScene ms sc) = sceneLights sc /\
  NoDup (map objId (clearedScene ms sc)) /\
  (forall P : Object3D -> Prop, Forall P sc -> Forall P (clearedScene ms sc)).
Proof.
  induction ms as [|m ms IH]; intros sc rest Hnd Hms; cbn [clearedScene fold_left].
  - auto.
  - destruct (sceneRemove_first m (ms ++ rest) sc Hnd Hms) as [H1 H2].
    destruct (IH (sceneRemove m sc) rest (removeChild_NoDup _ _ Hnd) H1)
      as (I1 & I2 & I3 & I4).
    fold (clearedScene ms (sceneRemove m sc)).
    repeat split; [exact I1 | now rewrite I2 | exact I3 |].
    intros P HP. apply I4. now apply removeChild_Forall.
Qed.

(** ** The invariant of the refs *)

Lemma Inv_initial : Inv initialState.
Proof. reflexivity. Qed.

Lemma Inv_clearShapes st : Inv st -> Inv (clearShapes st).
Proof.
  unfold Inv, clearShapes. destruct (sceneRef st) as [sc|] eqn:Hsc.
  - intros (Hms & Hnd & Hlt). cbn [sceneRef shapeMeshesRef nextId].
    destruct (clearedScene_spec (shapeMeshesRef st) sc [] Hnd) as (H1 & _ & H3 & H4).
    { now rewrite app_nil_r. }
    fold (clearedScene (shapeMeshesRef st) sc). auto.
  - rewrite Hsc. auto.
Qed.

Lemma clearShapes_empty st : Inv st -> shapeMeshesRef (clearShapes st) = [].
Proof.
  unfold Inv, clearShapes. destruct (sceneRef st) as [sc|]; [reflexivity | auto].
Qed.

Lemma Inv_effectCleanup st : Inv st -> Inv (effectCleanup st).
Proof.
  intros H. pose proof (Inv_clearShapes _ H) as Hc.
  pose proof (clearShapes_empty _ H) as He.
  unfold Inv, effectCleanup in *. cbn [sceneRef shapeMeshesRef nextId].
  now rewrite He in Hc.
Qed.

Lemma Inv_effectSetup st : shapeMeshesRef st = [] -> Inv (effectSetup st).
Proof.
  intros He. unfold Inv, effectSetup. cbn [sceneRef shapeMeshesRef nextId].
  rewrite He. split; [reflexivity|]. split.
  - cbn. repeat constructor; cbn; lia.
  - repeat constructor; cbn; lia.
Qed.

Lemma Inv_onTextureLoad tex st : Inv st -> Inv (onTextureLoad tex st).
Proof. intros H. exact H. Qed.

Lemma newShapes_ids tex num1 total base a n :
  map id (newShapes tex num1 total base a n) = seq base n.
Proof.
  unfold newShapes. rewrite map_map. cbn [id newShape].
  revert base. induction n as [|n IH]; intros base; [reflexivity|].
  cbn [seq map]. rewrite Nat.add_0_r. f_equal.
  rewrite <- (seq_shift n 0), map_map, <- (IH (S base)).
  apply map_ext. intros k. lia.
Qed.

Lemma Inv_addShapes tl num1 num2 st :
  Inv st -> Inv (addShapesForEquation tl num1 num2 st).
Proof.
  intros H. destruct (ready tl st) eqn:Hr.
  - destruct (ready_inv _ _ Hr) as (sc & tex & Hsc & Htex & Htl).
    rewrite (addShapes_ready _ num1 num2 _ _ _ Hsc Htex Htl).
    unfold Inv in *. rewrite Hsc in H. destruct H as (Hms & Hnd & Hlt).
    cbn [sceneRef shapeMeshesRef nextId]. cbv zeta.
    destruct (clearedScene_spec (shapeMeshesRef st) sc [] Hnd) as (H1 & _ & H3 & H4).
    { now rewrite app_nil_r. }
    set (ms := newShapes tex num1 (num1 + num2) (nextId st) 0 (num1 + num2)).
    assert (Hids : map objId (map MeshObject ms) = seq (nextId st) (num1 + num2)).
    { rewrite map_map. cbn [objId]. apply newShapes_ids. }
    split; [|split].
    + now rewrite sceneMeshes_app, H1, sceneMeshes_MeshObject.
    + rewrite map_app, Hids. apply NoDup_app; [exact H3 | apply seq_NoDup |].
      intros n Hn Hn'. apply in_seq in Hn'.
      apply in_map_iff in Hn as (o & <- & Ho).
      specialize (H4 _ Hlt). rewrite Forall_forall in H4.
      specialize (H4 _ Ho). cbn beta in H4. lia.
    + apply Forall_app. split.
      * eapply Forall_impl; [|apply (H4 _ Hlt)]. cbn beta. intros; lia.
      * rewrite Forall_forall. intros o Ho.
        apply (in_map objId) in Ho. rewrite Hids in Ho. apply in_seq in Ho. lia.
  - rewrite (addShapes_not_ready _ _ _ _ Hr). now apply Inv_clearShapes.
Qed.

Lemma step_Inv st st' : step st st' -> Inv st -> Inv st'.
Proof.
  intros Hs H. destruct Hs.
  - now apply Inv_effectSetup.
  - now apply Inv_effectCleanup.
  - now apply Inv_onTextureLoad.
  - now apply Inv_clearShapes.
  - now apply Inv_addShapes.
Qed.

Lemma reachable_Inv st : reachable st -> Inv st.
Proof.
  induction 1 as [|st st' _ IH Hs]; [apply Inv_initial | eapply step_Inv; eauto].
Qed.

(** ** The layout a call produces *)

Lemma ready_addShapes tl tl' num1 num2 st :
  ready tl st = true -> ready tl' (addShapesForEquation tl num1 num2 st) = tl'.
Proof.
  intros Hr. destruct (ready_inv _ _ Hr) as (sc & tex & Hsc & Htex & Htl).
  now rewrite (addShapes_ready _ num1 num2 _ _ _ Hsc Htex Htl).
Qed.

Lemma mountedState_ready : ready true mountedState = true.
Proof. reflexivity. Qed.

Lemma mountedState_reachable : reachable mountedState.
Proof.
  eapply reach_step; [eapply reach_step; [apply reach_init|]|].
  - now apply step_setup.
  - apply step_texture.
Qed.

Lemma shownState_reachable : reachable shownState.
Proof. eapply reach_step; [apply mountedState_reachable | apply step_add]. Qed.

(** C2: a call that passes the guard leaves exactly [num1 + num2] meshes on
    the ref, the one at place [i] being the unit the loop computes for the
    index [i], and nothing beyond. *)
Theorem layout_has_one_unit_per_index tl num1 num2 st :
  ready tl st = true ->
  length (layoutOf (addShapesForEquation tl num1 num2 st)) = num1 + num2 /\
  (forall i, i < num1 + num2 ->
     nth_error (layoutOf (addShapesForEquation tl num1 num2 st)) i =
     Some (shapeColor num1 i,
           mkVector3 (finalX (num1 + num2) i) (finalY i) (finalZ i))) /\
  (forall i, num1 + num2 <= i ->
     nth_error (layoutOf (addShapesForEquation tl num1 num2 st)) i = None).
Proof.
  intros Hr. rewrite (addShapes_layout _ _ _ _ Hr). unfold computeLayout.
  split; [|split].
  - now rewrite length_map, length_seq.
  - intros i Hi. rewrite nth_error_map, nth_error_seq.
    apply Nat.ltb_lt in Hi. now rewrite Hi.
  - intros i Hi. apply nth_error_None. now rewrite length_map, length_seq.
Qed.

Lemma layout_has_one_unit_per_index_witness :
  ready true mountedState = true /\
  length (layoutOf (addShapesForEquation true 7 9 mountedState)) = 7 + 9.
Proof.
  split; [reflexivity|].
  apply (layout_has_one_unit_per_index true 7 9 mountedState). reflexivity.
Defined.

(** C3: in emission order the units at the indices below [num1] are orange
    (the first operand) and those from [num1] up to [num1 + num2] are blue
    (the second); for 7 + 9 that is sixteen units in one block, seven orange
    ones followed by nine blue ones. *)
Theorem units_tagged_by_operand tl st :
  ready tl st = true ->
  (forall num1 num2 i, i < num1 ->
     exists m, nth_error (shapeMeshesRef (addShapesForEquation tl num1 num2 st)) i = Some m
               /\ color m = orangeColor) /\
  (forall num1 num2 i, num1 <= i < num1 + num2 ->
     exists m, nth_error (shapeMeshesRef (addShapesForEquation tl num1 num2 st)) i = Some m
               /\ color m = blueColor) /\
  orangeColor <> blueColor /\
  map color (shapeMeshesRef (addShapesForEquation tl 7 9 st)) =
    repeat orangeColor 7 ++ repeat blueColor 9 /\
  numBlocks (totalShapes 7 9) = 1.
Proof.
  intros Hr.
  assert (Hnth : forall num1 num2 i, i < num1 + num2 ->
            exists m, nth_error (shapeMeshesRef (addShapesForEquation tl num1 num2 st)) i = Some m
                      /\ color m = shapeColor num1 i).
  { intros num1 num2 i Hi.
    destruct (addShapes_meshes _ num1 num2 _ Hr) as (tex & _ & ->).
    rewrite (newShapes_nth _ _ _ _ _ _ _ Hi). eexists. split; reflexivity. }
  split; [|split; [|split; [|split]]].
  - intros num1 num2 i Hi. destruct (Hnth num1 num2 i) as (m & Hm & Hc); [lia|].
    exists m. split; [assumption|]. rewrite Hc. unfold shapeColor.
    apply Nat.ltb_lt in Hi. now rewrite Hi.
  - intros num1 num2 i Hi. destruct (Hnth num1 num2 i) as (m & Hm & Hc); [lia|].
    exists m. split; [assumption|]. rewrite Hc. unfold shapeColor.
    destruct (Nat.ltb_spec i num1); [lia | reflexivity].
  - discriminate.
  - destruct (addShapes_meshes _ 7 9 _ Hr) as (tex & _ & ->). reflexivity.
  - reflexivity.
Qed.

Lemma units_tagged_by_operand_witness :
  ready true mountedState = true /\
  map color (shapeMeshesRef (addShapesForEquation true 7 9 mountedState)) =
    repeat orangeColor 7 ++ repeat blueColor 9.
Proof.
  split; [reflexivity|].
  apply (units_tagged_by_operand true mountedState). reflexivity.
Defined.

(** C10: two calls whose operands have the same sum put their units at the
    same positions, place by place; the split shows in the tints only. *)
Theorem split_does_not_move_units tl1 tl2 a1 b1 a2 b2 st1 st2 :
  ready tl1 st1 = true ->
  ready tl2 st2 = true ->
  a1 + b1 = a2 + b2 ->
  map position (shapeMeshesRef (addShapesForEquation tl1 a1 b1 st1)) =
  map position (shapeMeshesRef (addShapesForEquation tl2 a2 b2 st2)).
Proof.
  intros H1 H2 Hsum.
  destruct (addShapes_meshes _ a1 b1 _ H1) as (tex1 & _ & ->).
  destruct (addShapes_meshes _ a2 b2 _ H2) as (tex2 & _ & ->).
  rewrite Hsum. unfold newShapes. rewrite !map_map. reflexivity.
Qed.

Lemma split_does_not_move_units_witness :
  map position (shapeMeshesRef (addShapesForEquation true 7 9 mountedState)) =
  map position (shapeMeshesRef (addShapesForEquation true 12 4 shownState)).
Proof.
  apply split_does_not_move_units; reflexivity.
Defined.

(** C7: the layout of a call is a function of its operands alone: any two
    calls with the same operands, from whatever states pass the guard, give
    the same sequence of units, tints and position values alike; so does a
    call made again right after the first. *)
Theorem layout_deterministic tl1 tl2 num1 num2 st1 st2 :
  ready tl1 st1 = true ->
  ready tl2 st2 = true ->
  layoutOf (addShapesForEquation tl1 num1 num2 st1) =
  layoutOf (addShapesForEquation tl2 num1 num2 st2) /\
  layoutOf (addShapesForEquation tl1 num1 num2
              (addShapesForEquation tl1 num1 num2 st1)) =
  layoutOf (addShapesForEquation tl1 num1 num2 st1).
Proof.
  intros H1 H2.
  assert (H1' : ready tl1 (addShapesForEquation tl1 num1 num2 st1) = true).
  { rewrite (ready_addShapes _ _ _ _ _ H1).
    destruct (ready_inv _ _ H1) as (_ & _ & _ & _ & ->). reflexivity. }
  now rewrite !addShapes_layout.
Qed.

Lemma layout_deterministic_witness :
  layoutOf (addShapesForEquation true 7 9 mountedState) =
  layoutOf (addShapesForEquation true 7 9 shownState).
Proof.
  apply (layout_deterministic true true 7 9 mountedState shownState); reflexivity.
Defined.

(** ** Blocks and cells *)

Lemma maxShapesPerBlock_125 : maxShapesPerBlock = 125.
Proof. reflexivity. Qed.

Lemma currentBlockIndex_bounds i b :
  currentBlockIndex i = b <-> 125 * b <= i < 125 * b + 125.
Proof.
  unfold currentBlockIndex. rewrite maxShapesPerBlock_125.
  pose proof (Nat.div_mod_eq i 125) as Hd.
  pose proof (Nat.mod_upper_bound i 125) as Hm.
  lia.
Qed.

Lemma filter_none {A} (f : A -> bool) l :
  (forall x, In x l -> f x = false) -> filter f l = [].
Proof.
  induction l as [|x l IH]; cbn; intros H; [reflexivity|].
  rewrite (H x) by now left. apply IH. intros y Hy. apply H. now right.
Qed.

Lemma filter_all {A} (f : A -> bool) l :
  (forall x, In x l -> f x = true) -> filter f l = l.
Proof.
  induction l as [|x l IH]; cbn; intros H; [reflexivity|].
  rewrite (H x) by now left. f_equal. apply IH. intros y Hy. apply H. now right.
Qed.

(** A predicate that holds, below [n], exactly on [lo, lo + len) selects that
    range from [0, n). *)
Lemma filter_seq_range (f : nat -> bool) lo len n :
  lo + len <= n ->
  (forall i, i < n -> f i = true <-> lo <= i < lo + len) ->
  filter f (seq 0 n) = seq lo len.
Proof.
  intros Hn Hf.
  replace n with (lo + (len + (n - (lo + len)))) by lia.
  rewrite !seq_app, !filter_app. cbn [Nat.add].
  rewrite (filter_none f (seq 0 lo)), (filter_all f (seq lo len)), filter_none.
  - now rewrite app_nil_r.
  - intros i Hi. apply in_seq in Hi. apply not_true_is_false.
    intros Ht. apply Hf in Ht; lia.
  - intros i Hi. apply in_seq in Hi. apply Hf; lia.
  - intros i Hi. apply in_seq in Hi. apply not_true_is_false.
    intros Ht. apply Hf in Ht; lia.
Qed.

Lemma numBlocks_spec total :
  125 * numBlocks total < total + 125 /\ total <= 125 * numBlocks total.
Proof.
  unfold numBlocks, ceilDiv. rewrite maxShapesPerBlock_125.
  pose proof (Nat.div_mod_eq total 125) as Hd.
  pose proof (Nat.mod_upper_bound total 125) as Hm.
  destruct (Nat.eqb_spec (total mod 125) 0); lia.
Qed.

Lemma unitsOfBlock_full total b :
  125 * b + 125 <= total -> unitsOfBlock total b = seq (125 * b) 125.
Proof.
  intros Hb. unfold unitsOfBlock. apply filter_seq_range; [assumption|].
  intros i _. rewrite Nat.eqb_eq. apply currentBlockIndex_bounds.
Qed.

Lemma unitsOfBlock_last total b :
  125 * b <= total <= 125 * b + 125 ->
  unitsOfBlock total b = seq (125 * b) (total - 125 * b).
Proof.
  intros Hb. unfold unitsOfBlock. apply filter_seq_range; [lia|].
  intros i Hi. rewrite Nat.eqb_eq, currentBlockIndex_bounds. lia.
Qed.

Lemma cells_of_index i :
  xInBlock i < 5 /\ yInBlock i < 5 /\ zInBlock i < 5 /\
  indexInBlock i = xInBlock i + 5 * yInBlock i + 25 * zInBlock i.
Proof.
  unfold xInBlock, yInBlock, zInBlock, indexInBlock.
  rewrite maxShapesPerBlock_125.
  change gridX_dim with 5. change gridY_dim with 5. change (5 * 5) with 25.
  set (k := i mod 125).
  assert (Hk : k < 125) by (apply Nat.mod_upper_bound; lia).
  pose proof (Nat.div_mod_eq k 5) as H5.
  pose proof (Nat.mod_upper_bound k 5) as M5.
  pose proof (Nat.div_mod_eq (k / 5) 5) as H55.
  pose proof (Nat.mod_upper_bound (k / 5) 5) as M55.
  assert (H25 : k / 25 = k / 5 / 5) by (now rewrite Nat.Div0.div_div).
  rewrite H25. lia.
Qed.







(** The arithmetic of blocks and cells. *)
Lemma block_and_cell_arithmetic :
  (forall i,
     currentBlockIndex i = i / 125 /\
     indexInBlock i = i mod 125 /\
     xInBlock i = indexInBlock i mod 5 /\
     yInBlock i = (indexInBlock i / 5) mod 5 /\
     zInBlock i = indexInBlock i / 25 /\
     xInBlock i < 5 /\ yInBlock i < 5 /\ zInBlock i < 5 /\
     indexInBlock i = xInBlock i + 5 * yInBlock i + 25 * zInBlock i) /\
  (forall i j,
     currentBlockIndex i = currentBlockIndex j ->
     indexInBlock i = indexInBlock j -> i = j) /\
  (forall total b, b + 1 < numBlocks total ->
     length (unitsOfBlock total b) = 125) /\
  (forall total b, b + 1 = numBlocks total ->
     1 <= length (unitsOfBlock total b) <= 125).
Proof.
  split; [|split; [|split]].
  - intros i. repeat (split; [reflexivity|]). apply cells_of_index.
  - intros i j. unfold currentBlockIndex, indexInBlock.
    rewrite maxShapesPerBlock_125. intros Hq Hr.
    rewrite (Nat.div_mod_eq i 125), (Nat.div_mod_eq j 125). now rewrite Hq, Hr.
  - intros total b Hb. pose proof (numBlocks_spec total) as Hn.
    rewrite unitsOfBlock_full by lia. apply length_seq.
  - intros total b Hb. pose proof (numBlocks_spec total) as Hn.
    rewrite unitsOfBlock_last by lia. rewrite length_seq. lia.
Qed.

Lemma seq_shifted base n : map (fun k => base + k) (seq 0 n) = seq base n.
Proof.
  revert base. induction n as [|n IH]; intros base; [reflexivity|].
  cbn [seq map]. rewrite Nat.add_0_r. f_equal.
  rewrite <- (seq_shift n 0), map_map, <- (IH (S base)).
  apply map_ext. intros k. lia.
Qed.

Lemma map_fst_combine {A B} (l : list A) : forall (l' : list B),
  length l = length l' -> map fst (combine l l') = l.
Proof.
  induction l as [|a l IH]; intros [|b l'] H; cbn in *; try discriminate;
    [reflexivity | f_equal; apply IH; lia].
Qed.

Lemma nth_error_combine_seq (ms : list Mesh) m : forall base i,
  nth_error ms i = Some m ->
  nth_error (combine (seq base (length ms)) ms) i = Some (base + i, m).
Proof.
  induction ms as [|m0 ms IH]; intros base i H; [now destruct i|].
  destruct i as [|i]; cbn in *.
  - injection H as ->. now rewrite Nat.add_0_r.
  - rewrite (IH (S base) i H). do 2 f_equal. lia.
Qed.

Lemma nth_error_placed ms i m :
  nth_error ms i = Some m -> nth_error (placed ms) i = Some (i, m).
Proof. intros H. unfold placed. now rewrite (nth_error_combine_seq _ _ 0 _ H). Qed.

(** The places of the meshes of a block are the indices of the block. *)
Lemma meshesOfBlock_places b ms :
  map fst (meshesOfBlock b ms) = unitsOfBlock (length ms) b.
Proof.
  unfold meshesOfBlock, unitsOfBlock, placed.
  rewrite <- (map_fst_combine (seq 0 (length ms)) ms) at 2
    by now rewrite length_seq.
  now rewrite filter_map_swap.
Qed.

Lemma indexInBlock_of_block b n :
  n <= 125 -> map indexInBlock (seq (125 * b) n) = seq 0 n.
Proof.
  intros Hn. rewrite <- (seq_shifted (125 * b) n), map_map.
  rewrite <- (map_id (seq 0 n)) at 2. apply map_ext_in.
  intros k Hk. apply in_seq in Hk. unfold indexInBlock.
  rewrite maxShapesPerBlock_125.
  symmetry. apply Nat.mod_unique with (q := b); lia.
Qed.

(** C4: the mesh the loop emits at place [i] stands in the cell the
    formulas give it: block [i / 125], place [i mod 125] in the block, cells
    [place mod 5], [(place / 5) mod 5] and [place / 25], each below 5 and
    together naming the place.  No two emitted meshes share block and place;
    in every block before the last the 125 places are taken once each, in
    order; the last block holds between 1 and 125 meshes, its first places;
    there is no mesh in a block beyond it. *)
Theorem units_fill_blocks_in_order tl num1 num2 st :
  ready tl st = true ->
  (forall i, i < num1 + num2 ->
     exists m,
       nth_error (shapeMeshesRef (addShapesForEquation tl num1 num2 st)) i = Some m /\
       nth_error (placed (shapeMeshesRef (addShapesForEquation tl num1 num2 st))) i
         = Some (i, m) /\
       position m =
         cellPosition (num1 + num2) (i / 125)
           ((i mod 125) mod 5) (((i mod 125) / 5) mod 5) ((i mod 125) / 25) /\
       (i mod 125) mod 5 < 5 /\ ((i mod 125) / 5) mod 5 < 5 /\ (i mod 125) / 25 < 5 /\
       i mod 125 =
         (i mod 125) mod 5 + 5 * (((i mod 125) / 5) mod 5) + 25 * ((i mod 125) / 25)) /\
  length (placed (shapeMeshesRef (addShapesForEquation tl num1 num2 st))) = num1 + num2 /\
  NoDup (map (fun im => (currentBlockIndex (fst im), indexInBlock (fst im)))
           (placed (shapeMeshesRef (addShapesForEquation tl num1 num2 st)))) /\
  (forall b, b + 1 < numBlocks (num1 + num2) ->
     map (fun im => indexInBlock (fst im))
       (meshesOfBlock b (shapeMeshesRef (addShapesForEquation tl num1 num2 st)))
     = seq 0 125) /\
  (forall b, b + 1 = numBlocks (num1 + num2) ->
     map (fun im => indexInBlock (fst im))
       (meshesOfBlock b (shapeMeshesRef (addShapesForEquation tl num1 num2 st)))
     = seq 0 (num1 + num2 - 125 * b) /\
     1 <= num1 + num2 - 125 * b <= 125) /\
  (forall b, numBlocks (num1 + num2) <= b ->
     meshesOfBlock b (shapeMeshesRef (addShapesForEquation tl num1 num2 st)) = []).
Proof.
  intros Hr.
  destruct (addShapes_meshes _ num1 num2 _ Hr) as (tex & _ & Hms).
  set (total := num1 + num2) in *.
  set (ms := shapeMeshesRef (addShapesForEquation tl num1 num2 st)) in *.
  assert (Hlen : length ms = total) by (rewrite Hms; apply newShapes_length).
  assert (Hfst : map fst (placed ms) = seq 0 total).
  { unfold placed. rewrite map_fst_combine, Hlen; [reflexivity|].
    now rewrite length_seq. }
  pose proof (numBlocks_spec total) as Hnb.
  destruct block_and_cell_arithmetic as (Hcell & Hinj & _ & _).
  split; [|split; [|split; [|split; [|split]]]].
  - intros i Hi.
    assert (Hnth : nth_error ms i = Some (newShape tex num1 total (nextId st + i) (0 + i))).
    { rewrite Hms. now apply newShapes_nth. }
    eexists. split; [exact Hnth|]. split; [now apply nth_error_placed|].
    split; [reflexivity|].
    destruct (Hcell i) as (_ & _ & _ & _ & _ & Hx & Hy & Hz & Hdec).
    repeat split; assumption.
  - unfold placed. rewrite length_combine, length_seq, Hlen. apply Nat.min_id.
  - rewrite <- (map_map fst (fun i => (currentBlockIndex i, indexInBlock i))), Hfst.
    apply NoDup_map_NoDup_ForallPairs; [|apply seq_NoDup].
    intros i j _ _ Heq. injection Heq as Hq Hm. now apply Hinj.
  - intros b Hb.
    rewrite <- (map_map fst indexInBlock), meshesOfBlock_places, Hlen.
    rewrite unitsOfBlock_full by lia. now apply indexInBlock_of_block.
  - intros b Hb. split; [|lia].
    rewrite <- (map_map fst indexInBlock), meshesOfBlock_places, Hlen.
    rewrite unitsOfBlock_last by lia. apply indexInBlock_of_block. lia.
  - intros b Hb. apply map_eq_nil with (f := fst).
    rewrite meshesOfBlock_places, Hlen. unfold unitsOfBlock.
    apply filter_none. intros i Hi. apply in_seq in Hi.
    apply Nat.eqb_neq. intros Hib. apply currentBlockIndex_bounds in Hib. lia.
Qed.

Lemma units_fill_blocks_in_order_witness :
  ready true mountedState = true /\
  map (fun im => indexInBlock (fst im))
    (meshesOfBlock 0 (shapeMeshesRef (addShapesForEquation true 126 0 mountedState)))
  = seq 0 125.
Proof.
  split; [reflexivity|].
  destruct (units_fill_blocks_in_order true 126 0 mountedState eq_refl)
    as (_ & _ & _ & Hfull & _).
  apply Hfull. vm_compute. lia.
Defined.

(** C6: with both operands zero the call leaves no unit; 125 units make one
    block, all of them in block 0; 126 units make two blocks, and the only
    unit of the second one is the unit of index 125. *)
Theorem boundary_layouts tl st :
  ready tl st = true ->
  layoutOf (addShapesForEquation tl 0 0 st) = [] /\
  (numBlocks (totalShapes 125 0) = 1 /\
   length (layoutOf (addShapesForEquation tl 125 0 st)) = 125 /\
   unitsOfBlock (totalShapes 125 0) 0 = seq 0 125 /\
   forall i, i < totalShapes 125 0 -> currentBlockIndex i = 0) /\
  (numBlocks (totalShapes 126 0) = 2 /\
   length (layoutOf (addShapesForEquation tl 126 0 st)) = 126 /\
   unitsOfBlock (totalShapes 126 0) 0 = seq 0 125 /\
   unitsOfBlock (totalShapes 126 0) 1 = [125] /\
   forall i, i < totalShapes 126 0 -> currentBlockIndex i < 2).
Proof.
  intros Hr. rewrite !(addShapes_layout _ _ _ _ Hr). unfold computeLayout.
  rewrite !length_map, !length_seq.
  split; [reflexivity|]. split.
  - repeat (split; [reflexivity|]).
    intros i Hi. apply currentBlockIndex_bounds. cbn in Hi. lia.
  - repeat (split; [reflexivity|]).
    intros i Hi. cbn in Hi.
    destruct (currentBlockIndex i) as [|[|b]] eqn:Hb; [lia | lia |].
    apply currentBlockIndex_bounds in Hb. lia.
Qed.

Lemma boundary_layouts_witness :
  ready true mountedState = true /\
  layoutOf (addShapesForEquation true 0 0 mountedState) = [].
Proof.
  split; [reflexivity|].
  apply (boundary_layouts true mountedState). reflexivity.
Defined.

(** ** Centering *)

(** C5: for 5 + 0 the five cubes of the single row sit at X = -5.3, -4.1,
    -2.9, -1.7 and -0.5 (as the nearest binary64 values): every X is negative,
    and the coordinates are not symmetric about 0. *)
Theorem five_units_left_of_origin :
  xCoordinates (layoutOf (addShapesForEquation true 5 0 mountedState)) =
    [-5.2999999999999998; -4.0999999999999996; -2.8999999999999999;
     -1.7000000000000002; -0.5]%float /\
  Forall (fun v => (v <? 0)%float = true)
    (xCoordinates (layoutOf (addShapesForEquation true 5 0 mountedState))) /\
  ~ symmetricAboutZero
      (xCoordinates (layoutOf (addShapesForEquation true 5 0 mountedState))).
Proof.
  assert (Hxs : xCoordinates (layoutOf (addShapesForEquation true 5 0 mountedState)) =
                [-5.2999999999999998; -4.0999999999999996; -2.8999999999999999;
                 -1.7000000000000002; -0.5]%float) by (vm_compute; reflexivity).
  assert (Hneg : Forall (fun v => (v <? 0)%float = true)
            (xCoordinates (layoutOf (addShapesForEquation true 5 0 mountedState)))).
  { rewrite Hxs. repeat constructor. }
  split; [exact Hxs|]. split; [exact Hneg|].
  intros Hsym. rewrite Forall_forall in Hneg.
  assert (Hin : In (-0.5)%float
            (xCoordinates (layoutOf (addShapesForEquation true 5 0 mountedState)))).
  { rewrite Hxs. cbn. tauto. }
  apply Hsym, Hneg in Hin. vm_compute in Hin. discriminate.
Qed.

(** ** Calling again *)

(** Outside the states the component reaches: without a scene [clearShapes]
    returns at once and leaves the ref as it is. *)
Lemma clearShapes_without_scene st :
  sceneRef st = None -> clearShapes st = st.
Proof. unfold clearShapes. now intros ->. Qed.

Lemma Inv_old_ids st sc m :
  Inv st -> sceneRef st = Some sc -> In m (shapeMeshesRef st) -> id m < nextId st.
Proof.
  unfold Inv. intros H Hsc Hm. rewrite Hsc in H. destruct H as (Hms & _ & Hlt).
  rewrite <- Hms in Hm. apply sceneMeshes_In in Hm.
  rewrite Forall_forall in Hlt. exact (Hlt _ Hm).
Qed.

(** C8: from a state the component reaches, a call that passes the guard
    first takes every mesh of the previous layout out of the scene and
    empties the ref, the lights staying, and only then runs the loop on that
    cleared state; afterwards the meshes of the scene are exactly those of
    the ref, their units are the layout of the new operands, and no mesh of
    the previous layout is on the ref or in the scene. *)
Theorem reinvocation_replaces_layout tl num1 num2 st :
  reachable st ->
  ready tl st = true ->
  exists sc sc1 sc' tex,
    sceneRef st = Some sc /\ textureRef st = Some tex /\
    sceneRef (clearShapes st) = Some sc1 /\
    sceneMeshes sc1 = [] /\
    shapeMeshesRef (clearShapes st) = [] /\
    sceneLights sc1 = sceneLights sc /\
    addShapesForEquation tl num1 num2 st =
      fold_left (loopBody tex num1 (totalShapes num1 num2))
                (seq 0 (totalShapes num1 num2)) (clearShapes st) /\
    sceneRef (addShapesForEquation tl num1 num2 st) = Some sc' /\
    sceneMeshes sc' = shapeMeshesRef (addShapesForEquation tl num1 num2 st) /\
    sceneLights sc' = sceneLights sc /\
    layoutOf (addShapesForEquation tl num1 num2 st) = computeLayout num1 num2 /\
    forall m, In m (shapeMeshesRef st) ->
      ~ In m (shapeMeshesRef (addShapesForEquation tl num1 num2 st)) /\
      ~ In (MeshObject m) sc'.
Proof.
  intros Hreach Hr. pose proof (reachable_Inv _ Hreach) as HI.
  destruct (ready_inv _ _ Hr) as (sc & tex & Hsc & Htex & Htl).
  pose proof (addShapes_layout _ num1 num2 _ Hr) as Hlay.
  pose proof (addShapes_ready _ num1 num2 _ _ _ Hsc Htex Htl) as Hadd.
  cbv zeta in Hadd.
  set (ms := newShapes tex num1 (num1 + num2) (nextId st) 0 (num1 + num2)) in *.
  assert (Hclear : clearShapes st =
            {| sceneRef := Some (clearedScene (shapeMeshesRef st) sc);
               shapeMeshesRef := [];
               textureRef := textureRef st;
               nextId := nextId st |}).
  { unfold clearShapes. now rewrite Hsc. }
  assert (Hloop : addShapesForEquation tl num1 num2 st =
            fold_left (loopBody tex num1 (totalShapes num1 num2))
                      (seq 0 (totalShapes num1 num2)) (clearShapes st)).
  { unfold addShapesForEquation. rewrite Hclear.
    cbn [sceneRef textureRef]. now rewrite Htex, Htl. }
  assert (HIsc := HI). unfold Inv in HIsc. rewrite Hsc in HIsc.
  destruct HIsc as (Hms & Hnd & Hlt).
  destruct (clearedScene_spec (shapeMeshesRef st) sc [] Hnd) as (H1 & H2 & _ & _).
  { now rewrite app_nil_r. }
  assert (Hnew : forall m, In m (shapeMeshesRef st) -> ~ In m ms).
  { intros m Hm Hin. pose proof (Inv_old_ids _ _ _ HI Hsc Hm) as Hid.
    apply newShapes_In in Hin as (k & _ & ->). cbn [id newShape] in Hid. lia. }
  assert (Hsm : sceneMeshes (clearedScene (shapeMeshesRef st) sc ++ map MeshObject ms) = ms).
  { now rewrite sceneMeshes_app, H1, sceneMeshes_MeshObject. }
  exists sc, (clearedScene (shapeMeshesRef st) sc),
    (clearedScene (shapeMeshesRef st) sc ++ map MeshObject ms), tex.
  split; [exact Hsc|]. split; [exact Htex|].
  split; [now rewrite Hclear|]. split; [exact H1|].
  split; [now rewrite Hclear|]. split; [exact H2|].
  split; [exact Hloop|].
  split; [now rewrite Hadd|].
  split; [now rewrite Hadd|].
  split.
  { unfold sceneLights. rewrite filter_app.
    fold (sceneLights (clearedScene (shapeMeshesRef st) sc)).
    fold (sceneLights (map MeshObject ms)).
    now rewrite sceneLights_MeshObject, app_nil_r. }
  split; [exact Hlay|].
  intros m Hm. rewrite Hadd. cbn [shapeMeshesRef].
  split; [now apply Hnew|].
  intros Hin. apply sceneMeshes_In in Hin. rewrite Hsm in Hin.
  now apply (Hnew m).
Qed.

Lemma reinvocation_replaces_layout_witness :
  reachable shownState /\ ready true shownState = true /\
  layoutOf (addShapesForEquation true 3 4 shownState) = computeLayout 3 4.
Proof.
  split; [apply shownState_reachable|]. split; [reflexivity|].
  destruct (reinvocation_replaces_layout true 3 4 shownState
              shownState_reachable eq_refl)
    as (sc & sc1 & sc' & tex & H). apply H.
Defined.

(** C9: from a state the component reaches, a call that stops at the guard
    (no scene, texture flag down, or no texture) has already cleared: the
    ref is empty and the scene, if any, holds no mesh and the lights it had;
    no mesh is made.  So a layout that was shown is gone, not kept. *)
Theorem early_exit_clears_shapes tl num1 num2 st :
  reachable st ->
  ready tl st = false ->
  shapeMeshesRef (addShapesForEquation tl num1 num2 st) = [] /\
  nextId (addShapesForEquation tl num1 num2 st) = nextId st /\
  textureRef (addShapesForEquation tl num1 num2 st) = textureRef st /\
  match sceneRef st with
  | None => sceneRef (addShapesForEquation tl num1 num2 st) = None
  | Some sc =>
      exists sc', sceneRef (addShapesForEquation tl num1 num2 st) = Some sc' /\
                  sceneMeshes sc' = [] /\ sceneLights sc' = sceneLights sc
  end /\
  (shapeMeshesRef st <> [] -> addShapesForEquation tl num1 num2 st <> st).
Proof.
  intros Hreach Hr. pose proof (reachable_Inv _ Hreach) as HI.
  rewrite (addShapes_not_ready _ _ _ _ Hr).
  pose proof (clearShapes_empty _ HI) as He.
  split; [exact He|].
  unfold clearShapes, Inv in *. destruct (sceneRef st) as [sc|] eqn:Hsc.
  - destruct HI as (Hms & Hnd & _).
    destruct (clearedScene_spec (shapeMeshesRef st) sc [] Hnd) as (H1 & H2 & _ & _).
    { now rewrite app_nil_r. }
    cbn [sceneRef shapeMeshesRef textureRef nextId].
    repeat (split; [reflexivity|]). split.
    + eexists. split; [reflexivity|]. split; assumption.
    + intros Hne Heq. apply Hne. now rewrite <- Heq.
  - repeat (split; [reflexivity|]). split; [exact Hsc|].
    intros Hne. contradiction.
Qed.

Lemma early_exit_clears_shapes_witness :
  reachable shownState /\ ready false shownState = false /\
  length (shapeMeshesRef shownState) = 16 /\
  shapeMeshesRef (addShapesForEquation false 7 9 shownState) = [].
Proof.
  split; [apply shownState_reachable|]. split; [reflexivity|].
  split; [reflexivity|].
  apply (early_exit_clears_shapes false 7 9 shownState shownState_reachable eq_refl).
Defined.

(** ** More on the arithmetic of the layout *)

(** Two float constants that differ are different floats. *)
Ltac float_absurd H :=
  match type of H with
  | ?a = ?b =>
      let E := fresh "E" in
      pose proof (f_equal (fun t => PrimFloat.compare t b) H) as E;
      vm_compute in E; discriminate E
  end.

(** Case analysis on a cell index. *)
Ltac below5 k :=
  let H := fresh "H" in
  assert (H : k = 0 \/ k = 1 \/ k = 2 \/ k = 3 \/ k = 4) by lia;
  destruct H as [ -> | [ -> | [ -> | [ -> | -> ] ] ] ].

Lemma lastBlockShapes_pred total :
  0 < total ->
  (total - 1) mod 125 =
  if lastBlockShapes total =? 0 then 124 else lastBlockShapes total - 1.
Proof.
  intros Hpos. unfold lastBlockShapes. rewrite maxShapesPerBlock_125.
  pose proof (Nat.div_mod_eq total 125) as Hd.
  pose proof (Nat.mod_upper_bound total 125) as Hm.
  destruct (Nat.eqb_spec (total mod 125) 0) as [H0|H0].
  - symmetry. apply Nat.mod_unique with (q := total / 125 - 1); lia.
  - symmetry. apply Nat.mod_unique with (q := total / 125); lia.
Qed.

(** The blocks [numBlocks] counts are the blocks the loop fills: no unit
    falls in a block beyond them, the last unit falls in the last of them,
    and there is no block exactly when there is no unit. *)
Theorem numBlocks_counts_filled_blocks total :
  (numBlocks total = 0 <-> total = 0) /\
  (forall i, i < total -> currentBlockIndex i < numBlocks total) /\
  (0 < total -> currentBlockIndex (total - 1) + 1 = numBlocks total).
Proof.
  pose proof (numBlocks_spec total) as Hn.
  split; [lia|]. split.
  - intros i Hi.
    destruct (currentBlockIndex_bounds i (currentBlockIndex i)) as [Hb _].
    specialize (Hb eq_refl). nia.
  - intros Hpos.
    destruct (currentBlockIndex_bounds (total - 1) (currentBlockIndex (total - 1)))
      as [Hb _].
    specialize (Hb eq_refl). nia.
Qed.

Lemma numBlocks_counts_filled_blocks_witness :
  currentBlockIndex (126 - 1) + 1 = numBlocks 126.
Proof.
  apply (numBlocks_counts_filled_blocks 126). lia.
Defined.

(** [columnsInLastBlock] is the column of the last unit, counted from one:
    between 1 and 5 when there is a unit, 0 when there is none.  The case the
    source singles out (a full last block) follows the same rule. *)
Theorem columnsInLastBlock_is_last_column total :
  0 < total ->
  columnsInLastBlock total = xInBlock (total - 1) + 1 /\
  1 <= columnsInLastBlock total <= 5 /\
  columnsInLastBlock 0 = 0.
Proof.
  intros Hpos.
  assert (Hc : columnsInLastBlock total = xInBlock (total - 1) + 1).
  { unfold columnsInLastBlock, xInBlock, indexInBlock.
    rewrite maxShapesPerBlock_125, (lastBlockShapes_pred _ Hpos).
    change gridX_dim with 5.
    apply Nat.ltb_lt in Hpos. rewrite Hpos, andb_true_r.
    destruct (Nat.eqb_spec (lastBlockShapes total) 0) as [H0|H0]; [reflexivity|].
    destruct (Nat.ltb_spec 0 (lastBlockShapes total)); [reflexivity | lia]. }
  split; [exact Hc|]. split; [|reflexivity].
  rewrite Hc. pose proof (cells_of_index (total - 1)). lia.
Qed.

Lemma columnsInLastBlock_is_last_column_witness :
  columnsInLastBlock 7 = xInBlock (7 - 1) + 1.
Proof.
  apply (columnsInLastBlock_is_last_column 7). lia.
Defined.

(** When the last block holds a full row and then stops in the middle of a
    row, its cubes stand in all five columns, yet the width of the scene is
    taken over fewer than five. *)
Theorem width_ignores_full_rows total :
  5 <= lastBlockShapes total ->
  total mod 5 <> 0 ->
  (forall x, x < 5 ->
     exists i, i < total /\
       currentBlockIndex i = currentBlockIndex (total - 1) /\
       xInBlock i = x) /\
  columnsInLastBlock total < 5.
Proof.
  intros Hrow Hmid.
  assert (Hpos : 0 < total).
  { destruct total; [cbn in Hrow; lia | lia]. }
  pose proof (lastBlockShapes_pred _ Hpos) as Hpred.
  assert (Hr : lastBlockShapes total = total mod 125) by reflexivity.
  pose proof (Nat.div_mod_eq total 125) as Hd.
  pose proof (Nat.mod_upper_bound total 125) as Hm.
  destruct (Nat.eqb_spec (lastBlockShapes total) 0) as [H0|H0]; [lia|].
  set (q := total / 125) in *.
  assert (Hlast : currentBlockIndex (total - 1) = q).
  { apply currentBlockIndex_bounds. lia. }
  split.
  - intros x Hx. exists (125 * q + x). split; [lia|]. split.
    + rewrite Hlast. apply currentBlockIndex_bounds. lia.
    + unfold xInBlock, indexInBlock. rewrite maxShapesPerBlock_125.
      change gridX_dim with 5.
      replace ((125 * q + x) mod 125) with x
        by (apply Nat.mod_unique with (q := q); lia).
      now apply Nat.mod_small.
  - destruct (columnsInLastBlock_is_last_column _ Hpos) as (Hc & _ & _).
    rewrite Hc. unfold xInBlock, indexInBlock.
    rewrite maxShapesPerBlock_125, Hpred. change gridX_dim with 5.
    assert (H5 : total mod 5 = (total mod 125) mod 5).
    { rewrite (Nat.div_mod_eq total 125) at 1.
      replace (125 * (total / 125)) with ((25 * (total / 125)) * 5) by lia.
      rewrite Nat.add_comm, Nat.Div0.mod_add. reflexivity. }
    pose proof (Nat.div_mod_eq (total mod 125) 5) as Hd5.
    pose proof (Nat.mod_upper_bound (total mod 125) 5) as Hm5.
    pose proof (Nat.mod_upper_bound (lastBlockShapes total - 1) 5) as Hm5'.
    enough ((lastBlockShapes total - 1) mod 5 <> 4) by lia.
    intros H4. apply Hmid. rewrite H5.
    pose proof (Nat.div_mod_eq (lastBlockShapes total - 1) 5) as Hd5'.
    rewrite Hr in *.
    symmetry. apply Nat.mod_unique with (q := S ((total mod 125 - 1) / 5)); lia.
Qed.

Lemma width_ignores_full_rows_witness :
  columnsInLastBlock 7 < 5.
Proof.
  apply (width_ignores_full_rows 7); [vm_compute; lia | discriminate].
Defined.

Lemma finalY_rowY i : finalY i = rowY (yInBlock i).
Proof. reflexivity. Qed.

Lemma finalZ_rowY i : finalZ i = rowY (zInBlock i).
Proof. reflexivity. Qed.

Lemma rowY_injective k k' : k < 5 -> k' < 5 -> rowY k = rowY k' -> k = k'.
Proof.
  intros Hk Hk' H.
  below5 k; below5 k'; try reflexivity; float_absurd H.
Qed.

Lemma rowX_injective c x x' :
  1 <= c <= 5 -> x < 5 -> x' < 5 -> rowX c x = rowX c x' -> x = x'.
Proof.
  intros Hc Hx Hx' H.
  assert (Hc' : c = 1 \/ c = 2 \/ c = 3 \/ c = 4 \/ c = 5) by lia.
  destruct Hc' as [ -> | [ -> | [ -> | [ -> | -> ] ] ] ];
    below5 x; below5 x'; try reflexivity; float_absurd H.
Qed.

(** In a layout of one block the X coordinate of a unit is read off its
    column and the column of the last unit. *)
Lemma finalX_single_block total i :
  0 < total <= 125 -> i < total ->
  finalX total i = rowX (columnsInLastBlock total) (xInBlock i).
Proof.
  intros Ht Hi.
  assert (Hnb : numBlocks total = 1).
  { pose proof (numBlocks_spec total). lia. }
  assert (Hb : currentBlockIndex i = 0).
  { apply currentBlockIndex_bounds. lia. }
  destruct (columnsInLastBlock_is_last_column total) as (_ & Hc & _); [lia|].
  unfold finalX, overallStartX, totalSceneWidth, rowX.
  rewrite Hnb, Hb. cbn [Nat.ltb Nat.leb Nat.sub].
  destruct (columnsInLastBlock total) as [|c]; [lia | reflexivity].
Qed.

(** Whatever the unit, its Y and its Z are one of five values, set by its
    row and its layer alone: -2.4, -1.2, 0, 1.2 less one rounding step, and
    2.4.  The outer rows mirror each other exactly and the middle row is at
    0; rows 1 and 3 miss being mirror images by that rounding step, so the
    five values are not symmetric about 0 as floats. *)
Theorem rows_and_layers_take_five_values :
  (forall i,
     finalY i = nth (yInBlock i)
       [-2.3999999999999999; -1.2; 0; 1.1999999999999997; 2.3999999999999999]%float
       0%float /\
     finalZ i = nth (zInBlock i)
       [-2.3999999999999999; -1.2; 0; 1.1999999999999997; 2.3999999999999999]%float
       0%float) /\
  (forall i j, finalY i = finalY j <-> yInBlock i = yInBlock j) /\
  (forall i j, finalZ i = finalZ j <-> zInBlock i = zInBlock j) /\
  (rowY 0 = - rowY 4)%float /\
  (rowY 1 + rowY 3 = -2.2204460492503131e-16)%float /\
  ~ symmetricAboutZero (map rowY (seq 0 5)).
Proof.
  assert (Htab : forall k, k < 5 ->
            rowY k = nth k
              [-2.3999999999999999; -1.2; 0; 1.1999999999999997;
               2.3999999999999999]%float 0%float).
  { intros k Hk. do 5 (destruct k as [|k]; [reflexivity|]). lia. }
  split; [|split; [|split; [|split; [|split]]]].
  - intros i. pose proof (cells_of_index i) as (_ & Hy & Hz & _).
    rewrite finalY_rowY, finalZ_rowY. split; now apply Htab.
  - intros i j. pose proof (cells_of_index i) as (_ & Hi & _).
    pose proof (cells_of_index j) as (_ & Hj & _).
    rewrite !finalY_rowY. split; [now apply rowY_injective | now intros ->].
  - intros i j. pose proof (cells_of_index i) as (_ & _ & Hi & _).
    pose proof (cells_of_index j) as (_ & _ & Hj & _).
    rewrite !finalZ_rowY. split; [now apply rowY_injective | now intros ->].
  - reflexivity.
  - reflexivity.
  - intros Hsym. specialize (Hsym (rowY 1)).
    assert (Hin : In (rowY 1) (map rowY (seq 0 5))) by (cbn; tauto).
    apply Hsym in Hin. cbn [map seq In] in Hin.
    repeat (destruct Hin as [Hin|Hin]; [float_absurd Hin|]). exact Hin.
Qed.

Lemma rowX_short_of_mirror c x :
  1 <= c <= 5 -> x < 5 ->
  (rowX c x + 0.9 <? - rowX c 0)%float = true.
Proof.
  intros Hc Hx.
  assert (Hc' : c = 1 \/ c = 2 \/ c = 3 \/ c = 4 \/ c = 5) by lia.
  destruct Hc' as [ -> | [ -> | [ -> | [ -> | -> ] ] ] ]; below5 x; reflexivity.
Qed.

(** A layout of one block (1 to 125 units) is never centred on X: every
    cube stays more than 0.9 short of the mirror image of the leftmost one,
    so the X coordinates are not symmetric about 0. *)
Theorem single_block_is_off_centre tl num1 num2 st :
  ready tl st = true ->
  0 < num1 + num2 <= 125 ->
  Forall (fun v => (v + 0.9 <? - finalX (num1 + num2) 0)%float = true)
    (xCoordinates (layoutOf (addShapesForEquation tl num1 num2 st))) /\
  In (finalX (num1 + num2) 0)
    (xCoordinates (layoutOf (addShapesForEquation tl num1 num2 st))) /\
  ~ symmetricAboutZero
      (xCoordinates (layoutOf (addShapesForEquation tl num1 num2 st))).
Proof.
  intros Hr Ht. rewrite (addShapes_layout _ _ _ _ Hr).
  unfold xCoordinates, computeLayout. rewrite map_map. cbn [snd vx].
  set (total := num1 + num2) in *.
  destruct (columnsInLastBlock_is_last_column total) as (_ & Hc & _); [lia|].
  assert (Hall : Forall (fun v => (v + 0.9 <? - finalX total 0)%float = true)
            (map (fun i => finalX total i) (seq 0 total))).
  { rewrite Forall_forall. intros v Hv.
    apply in_map_iff in Hv as (i & <- & Hi). apply in_seq in Hi.
    rewrite !finalX_single_block by lia.
    apply rowX_short_of_mirror; [exact Hc|].
    pose proof (cells_of_index i). lia. }
  assert (Hin : In (finalX total 0) (map (fun i => finalX total i) (seq 0 total))).
  { apply in_map_iff. exists 0. split; [reflexivity | apply in_seq; lia]. }
  split; [exact Hall|]. split; [exact Hin|].
  intros Hsym. apply Hsym in Hin.
  rewrite Forall_forall in Hall. specialize (Hall _ Hin). cbn beta in Hall.
  rewrite finalX_single_block in Hall by lia.
  change (xInBlock 0) with 0 in Hall.
  assert (Hc' : columnsInLastBlock total = 1 \/ columnsInLastBlock total = 2 \/
                columnsInLastBlock total = 3 \/ columnsInLastBlock total = 4 \/
                columnsInLastBlock total = 5) by lia.
  destruct Hc' as [ E | [ E | [ E | [ E | E ] ] ] ]; rewrite E in Hall;
    vm_compute in Hall; discriminate Hall.
Qed.

Lemma single_block_is_off_centre_witness :
  ~ symmetricAboutZero
      (xCoordinates (layoutOf (addShapesForEquation true 7 9 mountedState))).
Proof.
  apply (single_block_is_off_centre true 7 9 mountedState); [reflexivity | lia].
Defined.

(** In a layout of one block no two cubes are put at the same position. *)
Theorem single_block_positions_distinct tl num1 num2 st :
  ready tl st = true ->
  num1 + num2 <= 125 ->
  NoDup (map position (shapeMeshesRef (addShapesForEquation tl num1 num2 st))).
Proof.
  intros Hr Ht.
  destruct (addShapes_meshes _ num1 num2 _ Hr) as (tex & _ & ->).
  unfold newShapes. rewrite map_map. cbn [position newShape].
  set (total := num1 + num2) in *.
  apply NoDup_map_NoDup_ForallPairs; [|apply seq_NoDup].
  intros i j Hi Hj Heq. apply in_seq in Hi. apply in_seq in Hj.
  cbn [Nat.add] in Heq. injection Heq as HX HY HZ.
  rewrite !finalX_single_block in HX by lia.
  destruct (columnsInLastBlock_is_last_column total) as (_ & Hc & _); [lia|].
  pose proof (cells_of_index i) as (Hxi & Hyi & Hzi & Hidx).
  pose proof (cells_of_index j) as (Hxj & Hyj & Hzj & Hjdx).
  apply (rowX_injective _ _ _ Hc Hxi Hxj) in HX.
  rewrite !finalY_rowY in HY. apply (rowY_injective _ _ Hyi Hyj) in HY.
  rewrite !finalZ_rowY in HZ. apply (rowY_injective _ _ Hzi Hzj) in HZ.
  assert (Hsame : indexInBlock i = indexInBlock j) by lia.
  unfold indexInBlock in Hsame. rewrite maxShapesPerBlock_125 in Hsame.
  rewrite !Nat.mod_small in Hsame by lia. exact Hsame.
Qed.

Lemma single_block_positions_distinct_witness :
  NoDup (map position (shapeMeshesRef (addShapesForEquation true 7 9 mountedState))).
Proof.
  apply (single_block_positions_distinct true 7 9 mountedState);
    [reflexivity | vm_compute; lia].
Defined.

(** ** More on the refs *)

Lemma clearShapes_idempotent st : clearShapes (clearShapes st) = clearShapes st.
Proof.
  unfold clearShapes. destruct (sceneRef st) as [sc|] eqn:Hsc.
  - reflexivity.
  - now rewrite Hsc.
Qed.

(** Clearing twice is clearing once, clearing an empty ref changes nothing,
    and a call of [addShapesForEquation] made after a clear does what the
    call alone does. *)
Theorem clearShapes_is_absorbed tl num1 num2 st :
  clearShapes (clearShapes st) = clearShapes st /\
  (shapeMeshesRef st = [] -> clearShapes st = st) /\
  addShapesForEquation tl num1 num2 (clearShapes st) =
  addShapesForEquation tl num1 num2 st.
Proof.
  split; [apply clearShapes_idempotent|]. split.
  - intros He. unfold clearShapes.
    destruct st as [[sc|] ms t k]; cbn in *; subst; reflexivity.
  - unfold addShapesForEquation. now rewrite clearShapes_idempotent.
Qed.

Lemma clearShapes_is_absorbed_witness :
  clearShapes mountedState = mountedState.
Proof.
  destruct (clearShapes_is_absorbed true 0 0 mountedState) as (_ & H & _).
  apply H. reflexivity.
Defined.

Lemma no_mesh_all_lights sc : sceneMeshes sc = [] -> sceneLights sc = sc.
Proof.
  induction sc as [|o sc IH]; [reflexivity|].
  destruct o as [n|n|m]; cbn; intros H; try discriminate;
    f_equal; now apply IH.
Qed.

Lemma sceneLights_app sc1 sc2 :
  sceneLights (sc1 ++ sc2) = sceneLights sc1 ++ sceneLights sc2.
Proof. apply filter_app. Qed.

(** The three lights the setup effect puts in a new scene. *)
Lemma clearedScene_lights ms lights :
  sceneMeshes lights = [] ->
  NoDup (map objId (lights ++ map MeshObject ms)) ->
  clearedScene ms (lights ++ map MeshObject ms) = lights.
Proof.
  intros Hl Hnd.
  destruct (clearedScene_spec ms (lights ++ map MeshObject ms) [] Hnd)
    as (H1 & H2 & _ & _).
  { now rewrite sceneMeshes_app, Hl, sceneMeshes_MeshObject, app_nil_r. }
  rewrite <- (no_mesh_all_lights _ H1), H2.
  rewrite sceneLights_app, sceneLights_MeshObject, app_nil_r.
  now apply no_mesh_all_lights.
Qed.

Lemma sceneShape_cleared st sc :
  Inv st -> sceneShape st -> sceneRef st = Some sc ->
  exists a b c,
    clearedScene (shapeMeshesRef st) sc =
    [AmbientLight a; DirectionalLight b; DirectionalLight c].
Proof.
  unfold Inv, sceneShape. intros HI HS Hsc. rewrite Hsc in *.
  destruct HS as (a & b & c & ->). destruct HI as (_ & Hnd & _).
  exists a, b, c. now apply clearedScene_lights.
Qed.

Lemma sceneShape_clearShapes st : Inv st -> sceneShape st -> sceneShape (clearShapes st).
Proof.
  intros HI HS. destruct (sceneRef st) as [sc|] eqn:Hsc.
  - destruct (sceneShape_cleared _ _ HI HS Hsc) as (a & b & c & Hn).
    unfold sceneShape, clearShapes. rewrite Hsc. cbn [sceneRef shapeMeshesRef].
    exists a, b, c. fold (clearedScene (shapeMeshesRef st) sc). now rewrite Hn.
  - unfold sceneShape, clearShapes. now rewrite Hsc, Hsc.
Qed.

Lemma sceneShape_step st st' : step st st' -> Inv st -> sceneShape st -> sceneShape st'.
Proof.
  intros Hs HI HS. destruct Hs as [st He|st|tex st|st|tl num1 num2 st].
  - unfold sceneShape, effectSetup. cbn [sceneRef shapeMeshesRef]. rewrite He.
    do 3 eexists. reflexivity.
  - pose proof (sceneShape_clearShapes _ HI HS) as HS'.
    pose proof (clearShapes_empty _ HI) as He.
    unfold sceneShape, effectCleanup in *. cbn [sceneRef shapeMeshesRef].
    now rewrite He in HS'.
  - exact HS.
  - now apply sceneShape_clearShapes.
  - destruct (ready tl st) eqn:Hr.
    + destruct (ready_inv _ _ Hr) as (sc & tex & Hsc & Htex & Htl).
      rewrite (addShapes_ready _ num1 num2 _ _ _ Hsc Htex Htl). cbv zeta.
      destruct (sceneShape_cleared _ _ HI HS Hsc) as (a & b & c & Hn).
      unfold sceneShape. cbn [sceneRef shapeMeshesRef]. exists a, b, c.
      now rewrite Hn.
    + rewrite (addShapes_not_ready _ _ _ _ Hr). now apply sceneShape_clearShapes.
Qed.

(** In every state the component reaches, the scene, once there is one,
    holds the three lights of the setup effect, an ambient light and two
    directional ones, followed by exactly the meshes of the ref, in the
    order of the ref: no cube is left in the scene that the ref has
    forgotten, and no light is ever taken out. *)
Theorem scene_is_lights_then_cubes st sc :
  reachable st ->
  sceneRef st = Some sc ->
  exists a b c,
    sc = [AmbientLight a; DirectionalLight b; DirectionalLight c]
         ++ map MeshObject (shapeMeshesRef st).
Proof.
  intros Hreach Hsc.
  assert (HS : sceneShape st).
  { clear Hsc. induction Hreach as [|st0 st1 Hr IH Hs]; [exact I|].
    exact (sceneShape_step _ _ Hs (reachable_Inv _ Hr) IH). }
  unfold sceneShape in HS. now rewrite Hsc in HS.
Qed.

Lemma scene_is_lights_then_cubes_witness :
  exists a b c,
    [AmbientLight 0; DirectionalLight 1; DirectionalLight 2] =
    [AmbientLight a; DirectionalLight b; DirectionalLight c]
    ++ map MeshObject (shapeMeshesRef mountedState).
Proof.
  exact (scene_is_lights_then_cubes mountedState
           [AmbientLight 0; DirectionalLight 1; DirectionalLight 2]
           mountedState_reachable eq_refl).
Defined.

(** The cleanup of the setup effect, from a state the component reaches, is
    [clearShapes]: the assignment that follows the call has nothing left to
    empty.  It leaves no mesh on the ref or in the scene, keeps the lights,
    and drops neither the scene nor the texture from their refs. *)
Theorem cleanup_is_clearShapes st :
  reachable st ->
  effectCleanup st = clearShapes st /\
  shapeMeshesRef (effectCleanup st) = [] /\
  textureRef (effectCleanup st) = textureRef st /\
  nextId (effectCleanup st) = nextId st /\
  match sceneRef st with
  | None => sceneRef (effectCleanup st) = None
  | Some sc => sceneRef (effectCleanup st) = Some (sceneLights sc)
  end.
Proof.
  intros Hreach. pose proof (reachable_Inv _ Hreach) as HI.
  pose proof (clearShapes_empty _ HI) as He.
  assert (Heq : effectCleanup st = clearShapes st).
  { unfold effectCleanup. rewrite <- He at 1. now destruct (clearShapes st). }
  rewrite Heq. split; [reflexivity|]. split; [exact He|].
  unfold clearShapes. destruct (sceneRef st) as [sc|] eqn:Hsc.
  - cbn [sceneRef textureRef nextId]. repeat (split; [reflexivity|]).
    f_equal. fold (clearedScene (shapeMeshesRef st) sc).
    unfold Inv in HI. rewrite Hsc in HI. destruct HI as (Hms & Hnd & _).
    destruct (clearedScene_spec (shapeMeshesRef st) sc [] Hnd) as (H1 & H2 & _ & _).
    { now rewrite app_nil_r. }
    rewrite <- H2. symmetry. now apply no_mesh_all_lights.
  - repeat (split; [reflexivity|]). exact Hsc.
Qed.

Lemma cleanup_is_clearShapes_witness :
  reachable shownState /\ effectCleanup shownState = clearShapes shownState.
Proof.
  split; [apply shownState_reachable|].
  apply (cleanup_is_clearShapes shownState shownState_reachable).
Defined.

(** ** Dragging *)

Lemma dispatch_presenting p e : isPresenting p = true -> dispatch p e = p.
Proof.
  intros Hp. destruct e; cbn [dispatch];
    unfold onMouseDown, onMouseUp, onMouseMove, onTouchStart, onTouchEnd, onTouchMove;
    rewrite Hp; reflexivity.
Qed.

Lemma dispatch_idle p e :
  isDragging p = false -> isPress e = false -> dispatch p e = p.
Proof.
  intros Hd He. destruct (isPresenting p) eqn:Hp; [now apply dispatch_presenting|].
  destruct p as [pr dr prev rot]. cbn in Hd, Hp. subst pr dr.
  destruct e as [x y| |x y|ts| |ts]; cbn in He; try discriminate;
    cbn [dispatch]; unfold onMouseUp, onMouseMove, onTouchStart, onTouchEnd,
      onTouchMove, release; cbn [isPresenting isDragging negb andb];
    try reflexivity.
  now rewrite He.
Qed.

Lemma run_idle evs : forall p,
  isDragging p = false -> forallb (fun e => negb (isPress e)) evs = true ->
  fold_left dispatch evs p = p.
Proof.
  induction evs as [|e evs IH]; intros p Hd He; [reflexivity|].
  cbn [forallb] in He. apply andb_true_iff in He as [He1 He2].
  apply negb_true_iff in He1. cbn [fold_left].
  rewrite (dispatch_idle _ _ Hd He1). now apply IH.
Qed.

Lemma run_presenting evs : forall p,
  isPresenting p = true -> fold_left dispatch evs p = p.
Proof.
  induction evs as [|e evs IH]; intros p Hp; [reflexivity|].
  cbn [fold_left]. rewrite (dispatch_presenting _ _ Hp). now apply IH.
Qed.

Lemma handle_idle p e :
  isDragging p = false -> isPressEvent e = false ->
  isDragging (handle p e) = false /\
  sceneRotation (handle p e) = sceneRotation p /\
  previousMousePosition (handle p e) = previousMousePosition p.
Proof.
  intros Hd He. destruct e as [e| |]; cbn [handle setPresenting isDragging
    sceneRotation previousMousePosition]; auto.
  cbn [isPressEvent] in He. rewrite (dispatch_idle _ _ Hd He). auto.
Qed.

Lemma run_handle_idle evs : forall p,
  isDragging p = false -> forallb (fun e => negb (isPressEvent e)) evs = true ->
  isDragging (fold_left handle evs p) = false /\
  sceneRotation (fold_left handle evs p) = sceneRotation p /\
  previousMousePosition (fold_left handle evs p) = previousMousePosition p.
Proof.
  induction evs as [|e evs IH]; intros p Hd He; [auto|].
  cbn [forallb] in He. apply andb_true_iff in He as [He1 He2].
  apply negb_true_iff in He1. cbn [fold_left].
  destruct (handle_idle _ _ Hd He1) as (Hd' & Hr & Hp).
  destruct (IH _ Hd' He2) as (Hd'' & Hr' & Hp').
  rewrite Hr', Hp'. auto.
Qed.

(** Without a press nothing moves: a run of pointer events and of VR
    sessions starting and ending that contains no mouse-down and no
    one-finger touch start, met with no drag under way, leaves the rotation
    of the scene, the reference point and the drag flag as they were; so
    does such a run after a release that arrives outside VR.  A release
    that arrives while the renderer presents is ignored: the drag stays
    marked, and the first move after the session has ended turns the
    scene. *)
Theorem no_press_no_rotation evs p :
  forallb (fun e => negb (isPressEvent e)) evs = true ->
  (isDragging p = false ->
     isDragging (fold_left handle evs p) = false /\
     sceneRotation (fold_left handle evs p) = sceneRotation p /\
     previousMousePosition (fold_left handle evs p) = previousMousePosition p) /\
  (isPresenting p = false ->
     sceneRotation (fold_left handle (Pointing MouseUp :: evs) p) = sceneRotation p /\
     sceneRotation (fold_left handle (Pointing TouchEnd :: evs) p) = sceneRotation p) /\
  (isPresenting p = true -> isDragging p = true ->
     forall clientX clientY,
       fold_left handle
         [Pointing MouseUp; SessionEnd; Pointing (MouseMove clientX clientY)] p =
       dragTo clientX clientY (setPresenting false p)).
Proof.
  intros He. split; [|split].
  - intros Hd. now apply run_handle_idle.
  - intros Hp. cbn [fold_left handle dispatch]. unfold onMouseUp, onTouchEnd.
    rewrite Hp. cbn [negb].
    destruct (run_handle_idle evs (release p) eq_refl He) as (_ & Hr & _).
    now rewrite Hr.
  - intros Hp Hd x y. cbn [fold_left handle dispatch].
    unfold onMouseUp. rewrite Hp. cbn [negb].
    unfold onMouseMove. cbn [setPresenting isPresenting isDragging negb andb].
    now rewrite Hd.
Qed.

Lemma no_press_no_rotation_witness :
  sceneRotation
    (fold_left handle
       [Pointing MouseUp; Pointing (MouseMove 30 40); SessionStart;
        Pointing (TouchStart [(1, 2); (3, 4)]); SessionEnd;
        Pointing (TouchMove [(5, 6)])]%float
       (mkPointer false true (10, 10)%float (Some (0, 0)%float))) =
  Some (0, 0)%float.
Proof.
  apply (no_press_no_rotation
           [Pointing (MouseMove 30 40); SessionStart;
            Pointing (TouchStart [(1, 2); (3, 4)]); SessionEnd;
            Pointing (TouchMove [(5, 6)])]%float
           (mkPointer false true (10, 10)%float (Some (0, 0)%float)));
    reflexivity.
Defined.

(** While the renderer presents in VR the six listeners do nothing: no run
    of pointer events changes the rotation, the reference point or the drag
    flag; a drag begun before is still marked as under way afterwards. *)
Theorem presenting_ignores_pointer evs p :
  isPresenting p = true ->
  fold_left dispatch evs p = p.
Proof. intros Hp. now apply run_presenting. Qed.

Lemma presenting_ignores_pointer_witness :
  fold_left dispatch [MouseDown 1 2; MouseMove 30 40; MouseUp]%float
    (mkPointer true true (10, 10)%float (Some (0, 0)%float)) =
  mkPointer true true (10, 10)%float (Some (0, 0)%float).
Proof.
  apply (presenting_ignores_pointer [MouseDown 1 2; MouseMove 30 40; MouseUp]%float).
  reflexivity.
Defined.

(** ** Operands *)

Lemma digitsValue_app ds1 : forall acc ds2,
  digitsValue acc (ds1 ++ ds2) = digitsValue (digitsValue acc ds1) ds2.
Proof. induction ds1 as [|d ds1 IH]; intros acc ds2; cbn; [reflexivity | apply IH]. Qed.

Lemma digitsValue_acc ds : forall acc,
  digitsValue acc ds = acc * 10 ^ length ds + digitsValue 0 ds.
Proof.
  induction ds as [|d ds IH]; intros acc; cbn [digitsValue length Nat.pow].
  - lia.
  - rewrite IH, (IH (10 * 0 + digitValue d)). nia.
Qed.

Lemma digitsValue_concat ds1 ds2 :
  digitsValue 0 (ds1 ++ ds2) =
  digitsValue 0 ds1 * 10 ^ length ds2 + digitsValue 0 ds2.
Proof. now rewrite digitsValue_app, digitsValue_acc. Qed.

Lemma digitsValue_of_uint u : forall acc,
  digitsValue acc (digitsOfUint u) = Nat.of_uint_acc u acc.
Proof.
  induction u; intros acc; cbn [digitsOfUint digitsValue Nat.of_uint_acc digitValue];
    rewrite ?IHu, ?Nat.tail_mul_spec; f_equal; lia.
Qed.

Lemma to_uint_nonnil n : Nat.to_uint n <> Decimal.Nil.
Proof.
  rewrite <- (DecimalNat.Unsigned.of_to n) at 1.
  rewrite DecimalNat.Unsigned.to_of. apply DecimalFacts.unorm_nonnil.
Qed.

Lemma allDigits_Dig ds : allDigits (map Dig ds) = Some ds.
Proof. induction ds as [|d ds IH]; cbn; [reflexivity | now rewrite IH]. Qed.

Lemma leadingDigits_Dig ds : leadingDigits (map Dig ds) = ds.
Proof. induction ds as [|d ds IH]; cbn; [reflexivity | now rewrite IH]. Qed.

(** A string of digits read as a number, and by [parseInt]. *)
Lemma stringToNumber_digits ds :
  stringToNumber (map Dig ds) = Some (Z.of_nat (digitsValue 0 ds)).
Proof.
  destruct ds as [|d ds]; [reflexivity|].
  unfold stringToNumber. cbn [map]. change (Dig d :: map Dig ds) with (map Dig (d :: ds)).
  now rewrite allDigits_Dig.
Qed.

Lemma parseIntString_digits ds :
  ds <> [] -> parseIntString (map Dig ds) = Some (Z.of_nat (digitsValue 0 ds)).
Proof.
  destruct ds as [|d ds]; [congruence|]. intros _.
  unfold parseIntString. cbn [map]. change (Dig d :: map Dig ds) with (map Dig (d :: ds)).
  now rewrite leadingDigits_Dig.
Qed.

Lemma numberToString_digits n :
  exists ds, ds <> [] /\ numberToString n = map Dig ds /\ digitsValue 0 ds = n.
Proof.
  exists (digitsOfUint (Nat.to_uint n)). split; [|split].
  - pose proof (to_uint_nonnil n) as H. destruct (Nat.to_uint n); cbn; congruence.
  - reflexivity.
  - rewrite digitsValue_of_uint. apply DecimalNat.Unsigned.of_to.
Qed.

Lemma parseInt_number n : parseInt (OpNumber n) = Some (Z.of_nat n).
Proof.
  destruct (numberToString_digits n) as (ds & Hne & Hs & Hv).
  unfold parseInt, toString. rewrite Hs, (parseIntString_digits _ Hne). now rewrite Hv.
Qed.

Lemma toNumber_digits v ds :
  toString v = map Dig ds -> toNumber v = Some (Z.of_nat (digitsValue 0 ds)).
Proof.
  intros Hs. destruct v as [n|s]; cbn [toNumber toString] in *.
  - destruct (numberToString_digits n) as (ds' & _ & Hs' & Hv).
    rewrite Hs' in Hs. apply (f_equal leadingDigits) in Hs.
    rewrite !leadingDigits_Dig in Hs. subst ds'. now rewrite Hv.
  - subst s. apply stringToNumber_digits.
Qed.

Lemma fold_left_ext_in {A B} (f g : A -> B -> A) l : forall a,
  (forall a b, In b l -> f a b = g a b) -> fold_left f l a = fold_left g l a.
Proof.
  induction l as [|b l IH]; intros a H; [reflexivity|].
  cbn [fold_left]. rewrite (H a b) by now left.
  apply IH. intros a' b' Hb. apply H. now right.
Qed.

Lemma shapeColor_min num1 total i :
  i < total -> shapeColor (Nat.min num1 total) i = shapeColor num1 i.
Proof.
  intros Hi. unfold shapeColor.
  destruct (Nat.ltb_spec i (Nat.min num1 total)), (Nat.ltb_spec i num1);
    reflexivity || lia.
Qed.

(** The call on operands is the call on two numbers: the number of orange
    cubes, and what is left of the total. *)
Lemma addShapesOf_as_numbers tl v1 v2 st :
  addShapesForEquationOf tl v1 v2 st =
  addShapesForEquation tl
    (Nat.min (countBelow (toNumber v1)) (countBelow (toNumber (jsPlus v1 v2))))
    (countBelow (toNumber (jsPlus v1 v2))
     - Nat.min (countBelow (toNumber v1)) (countBelow (toNumber (jsPlus v1 v2))))
    st.
Proof.
  unfold addShapesForEquationOf, addShapesForEquation, totalShapes.
  set (n1 := countBelow (toNumber v1)).
  set (T := countBelow (toNumber (jsPlus v1 v2))).
  replace (Nat.min n1 T + (T - Nat.min n1 T)) with T by lia.
  destruct (sceneRef (clearShapes st)); [|reflexivity].
  destruct tl; [|reflexivity].
  destruct (textureRef (clearShapes st)) as [tex|]; [|reflexivity].
  apply fold_left_ext_in. intros a i Hi. apply in_seq in Hi.
  unfold loopBody, newShape. now rewrite shapeColor_min by lia.
Qed.

Lemma addShapesOf_numbers tl a b st :
  addShapesForEquationOf tl (OpNumber a) (OpNumber b) st =
  addShapesForEquation tl a b st.
Proof.
  unfold addShapesForEquationOf, addShapesForEquation, totalShapes.
  cbn [jsPlus toNumber countBelow]. now rewrite !Nat2Z.id.
Qed.

(** ** The component and its refs *)

Lemma creachable_reachable c : creachable c -> reachable (refs c).
Proof.
  induction 1 as [|c c' _ IH Hs]; [apply reach_init|].
  destruct Hs as [c|tl v1 v2 tex c Hsc|c|value c|value c|c].
  - cbn [runEffect withRefs refs].
    eapply reach_step; [eapply reach_step; [exact IH | apply step_cleanup]|].
    apply step_setup. reflexivity.
  - cbn [loaderOnLoad refs]. rewrite addShapesOf_as_numbers.
    eapply reach_step; [eapply reach_step; [exact IH | apply step_texture]|].
    apply step_add.
  - exact IH.
  - exact IH.
  - exact IH.
  - unfold handleVisualizeClick.
    destruct (parseInt (number1 c)) as [z1|]; [|exact IH].
    destruct (parseInt (number2 c)) as [z2|]; [|exact IH].
    destruct ((z1 <? 0)%Z || (z2 <? 0)%Z); [exact IH|].
    destruct (textureLoadedState c); [|exact IH].
    cbn [fst withRefs refs]. eapply reach_step; [exact IH | apply step_add].
Qed.

Lemma ready_true_inv st :
  ready true st = true <-> sceneRef st <> None /\ textureRef st <> None.
Proof.
  unfold ready. destruct (sceneRef st), (textureRef st); split;
    try discriminate; try (intros [? ?]; congruence); intros _; split; discriminate.
Qed.

Lemma ready_false st : ready false st = false.
Proof. unfold ready. now destruct (sceneRef st), (textureRef st). Qed.

Lemma ready_after_add tl num1 num2 st :
  ready true st = true -> ready true (addShapesForEquation tl num1 num2 st) = true.
Proof.
  intros Hr. destruct tl.
  - now rewrite (ready_addShapes _ _ _ _ _ Hr).
  - rewrite addShapes_not_ready.
    + apply ready_true_inv in Hr as [Hs Ht]. apply ready_true_inv.
      unfold clearShapes. destruct (sceneRef st) eqn:E; [|congruence].
      cbn [sceneRef textureRef]. split; [discriminate | assumption].
    + unfold ready. now destruct (sceneRef st), (textureRef st).
Qed.

Lemma creachable_flag c :
  creachable c -> textureLoadedState c = true -> ready true (refs c) = true.
Proof.
  induction 1 as [|c c' Hc IH Hs]; [discriminate|].
  destruct Hs as [c|tl v1 v2 tex c Hsc|c|value c|value c|c]; cbn [fst].
  - cbn [runEffect withRefs refs textureLoadedState]. intros Hf.
    pose proof (IH Hf) as Hr. apply ready_true_inv in Hr as [_ Ht].
    apply ready_true_inv.
    cbn [effectSetup sceneRef textureRef]. split; [discriminate|].
    unfold effectCleanup. cbn [textureRef].
    unfold clearShapes. now destruct (sceneRef (refs c)).
  - intros _. cbn [loaderOnLoad refs]. rewrite addShapesOf_as_numbers.
    apply ready_after_add. apply ready_true_inv.
    cbn [onTextureLoad sceneRef textureRef]. split; [assumption | discriminate].
  - discriminate.
  - exact IH.
  - exact IH.
  - unfold handleVisualizeClick.
    destruct (parseInt (number1 c)) as [z1|]; [|exact IH].
    destruct (parseInt (number2 c)) as [z2|]; [|exact IH].
    destruct ((z1 <? 0)%Z || (z2 <? 0)%Z); [exact IH|].
    destruct (textureLoadedState c) eqn:Hf;
      [|cbn [fst]; rewrite Hf; discriminate].
    cbn [fst withRefs refs textureLoadedState]. intros _.
    apply ready_after_add. now apply IH.
Qed.

Lemma countBelow_concat v1 v2 ds1 ds2 :
  toString v1 = map Dig ds1 ->
  toString v2 = map Dig ds2 ->
  (exists s, v1 = OpString s) \/ (exists s, v2 = OpString s) ->
  countBelow (toNumber v1) = digitsValue 0 ds1 /\
  countBelow (toNumber (jsPlus v1 v2)) =
    digitsValue 0 ds1 * 10 ^ length ds2 + digitsValue 0 ds2.
Proof.
  intros H1 H2 Hstr. split.
  - rewrite (toNumber_digits _ _ H1). cbn [countBelow]. apply Nat2Z.id.
  - assert (Hplus : jsPlus v1 v2 = OpString (map Dig (ds1 ++ ds2))).
    { rewrite map_app, <- H1, <- H2.
      destruct Hstr as [[s ->]|[s ->]]; [reflexivity | now destruct v1]. }
    rewrite Hplus. cbn [toNumber]. rewrite stringToNumber_digits.
    cbn [countBelow]. rewrite Nat2Z.id. apply digitsValue_concat.
Qed.

(** When an operand reaches [addShapesForEquation] as the string of digits
    typed in the input, the total is the digits of the first operand
    followed by those of the second, read as one number, not the sum: as
    many cubes are made, the first operand's worth of them orange. *)
Theorem unparsed_operands_are_concatenated tl v1 v2 ds1 ds2 st :
  ready tl st = true ->
  toString v1 = map Dig ds1 ->
  toString v2 = map Dig ds2 ->
  (exists s, v1 = OpString s) \/ (exists s, v2 = OpString s) ->
  length (shapeMeshesRef (addShapesForEquationOf tl v1 v2 st)) =
    digitsValue 0 ds1 * 10 ^ length ds2 + digitsValue 0 ds2 /\
  layoutOf (addShapesForEquationOf tl v1 v2 st) =
    computeLayout (digitsValue 0 ds1)
      (digitsValue 0 ds1 * 10 ^ length ds2 + digitsValue 0 ds2 - digitsValue 0 ds1).
Proof.
  intros Hr H1 H2 Hstr.
  destruct (countBelow_concat _ _ _ _ H1 H2 Hstr) as [Hn1 HT].
  assert (Hle : digitsValue 0 ds1 <= digitsValue 0 ds1 * 10 ^ length ds2 + digitsValue 0 ds2).
  { pose proof (Nat.pow_nonzero 10 (length ds2)). nia. }
  assert (Hlay : layoutOf (addShapesForEquationOf tl v1 v2 st) =
            computeLayout (digitsValue 0 ds1)
              (digitsValue 0 ds1 * 10 ^ length ds2 + digitsValue 0 ds2
               - digitsValue 0 ds1)).
  { rewrite addShapesOf_as_numbers, Hn1, HT, (addShapes_layout _ _ _ _ Hr).
    now rewrite Nat.min_l by exact Hle. }
  split; [|exact Hlay].
  apply (f_equal (@length _)) in Hlay. unfold layoutOf, computeLayout in Hlay.
  rewrite !length_map, length_seq in Hlay. lia.
Qed.

Lemma unparsed_operands_are_concatenated_witness :
  length (shapeMeshesRef
            (addShapesForEquationOf true (OpString [Dig d1; Dig d2]) (OpNumber 9)
               mountedState)) = 129.
Proof.
  apply (unparsed_operands_are_concatenated true (OpString [Dig d1; Dig d2])
           (OpNumber 9) [d1; d2] [d9] mountedState);
    [reflexivity | reflexivity | reflexivity | left; now eexists].
Defined.

(** ** The button *)

(** A click that shows an alert changes nothing.  The alert about the
    numbers is shown exactly when [parseInt] gives [NaN] or a negative
    number for one of the fields, whatever the texture flag; the alert about
    the texture exactly when both are fine and the flag is down. *)
Theorem click_with_alert_changes_nothing c :
  (forall msg, snd (handleVisualizeClick c) = Some msg ->
     fst (handleVisualizeClick c) = c) /\
  (snd (handleVisualizeClick c) = Some invalidNumbersMessage <->
     parseInt (number1 c) = None \/ parseInt (number2 c) = None \/
     (exists z, parseInt (number1 c) = Some z /\ (z < 0)%Z) \/
     (exists z, parseInt (number2 c) = Some z /\ (z < 0)%Z)) /\
  (snd (handleVisualizeClick c) = Some stillLoadingMessage <->
     textureLoadedState c = false /\
     exists z1 z2, parseInt (number1 c) = Some z1 /\ parseInt (number2 c) = Some z2 /\
                   (0 <= z1)%Z /\ (0 <= z2)%Z).
Proof.
  unfold handleVisualizeClick.
  destruct (parseInt (number1 c)) as [z1|]; [destruct (parseInt (number2 c)) as [z2|]|].
  - destruct (Z.ltb_spec z1 0), (Z.ltb_spec z2 0); cbn [orb];
      try (split; [reflexivity || (intros; reflexivity)|]; split;
           [ split; [intros _; eauto 6 | reflexivity]
           | split; [discriminate | intros (_ & a & b & Ha & Hb & ? & ?);
                                    injection Ha as <-; injection Hb as <-; lia] ]).
    destruct (textureLoadedState c) eqn:Hf; cbn [fst snd].
    + split; [discriminate|]. split.
      * split; [discriminate|].
        intros [H'|[H'|[(z & Hz & ?)|(z & Hz & ?)]]]; try discriminate;
          injection Hz as <-; lia.
      * split; [discriminate | intros [? _]; discriminate].
    + split; [reflexivity|]. split.
      * split; [discriminate|].
        intros [H'|[H'|[(z & Hz & ?)|(z & Hz & ?)]]]; try discriminate;
          injection Hz as <-; lia.
      * split; [intros _; split; [reflexivity | eauto 8] | reflexivity].
  - cbn [fst snd]. split; [reflexivity|]. split.
    + split; [intros _; auto | reflexivity].
    + split; [discriminate | intros (_ & a & b & _ & Hb & _); discriminate].
  - cbn [fst snd]. split; [reflexivity|]. split.
    + split; [intros _; auto | reflexivity].
    + split; [discriminate | intros (_ & a & b & Ha & _); discriminate].
Qed.

Lemma click_with_alert_changes_nothing_witness :
  handleVisualizeClick (setNumber1 [Minus; Dig d3] shownComponent) =
  (setNumber1 [Minus; Dig d3] shownComponent, Some invalidNumbersMessage).
Proof.
  destruct (click_with_alert_changes_nothing (setNumber1 [Minus; Dig d3] shownComponent))
    as (Hsame & Hinv & _).
  assert (Hmsg : snd (handleVisualizeClick (setNumber1 [Minus; Dig d3] shownComponent))
                 = Some invalidNumbersMessage).
  { apply Hinv. right. right. left. exists (-3)%Z. split; [reflexivity | lia]. }
  rewrite (surjective_pairing (handleVisualizeClick _)), Hmsg, (Hsame _ Hmsg).
  reflexivity.
Defined.

Lemma afterFirstLoad_creachable tex : creachable (afterFirstLoad tex).
Proof.
  eapply creach_step; [eapply creach_step; [apply creach_init | apply cstep_effect]|].
  apply cstep_load. discriminate.
Qed.

Lemma afterSecondLoad_creachable tex tex' : creachable (afterSecondLoad tex tex').
Proof.
  eapply creach_step;
    [eapply creach_step; [apply afterFirstLoad_creachable | apply cstep_effect]|].
  apply cstep_load. discriminate.
Qed.

(** A click that shows no alert, in a state the component reaches, replaces
    the layout by that of the two fields read by [parseInt]: both are
    non-negative integers, the texture flag is up, and the guard of
    [addShapesForEquation] lets the call through, so the click never empties
    the scene without drawing. *)
Theorem click_shows_parsed_sum c :
  creachable c ->
  snd (handleVisualizeClick c) = None ->
  exists num1 num2,
    parseInt (number1 c) = Some (Z.of_nat num1) /\
    parseInt (number2 c) = Some (Z.of_nat num2) /\
    textureLoadedState c = true /\
    ready true (refs c) = true /\
    layoutOf (refs (fst (handleVisualizeClick c))) = computeLayout num1 num2 /\
    length (shapeMeshesRef (refs (fst (handleVisualizeClick c)))) = num1 + num2.
Proof.
  intros Hc. pose proof (creachable_flag _ Hc) as Hflag.
  unfold handleVisualizeClick.
  destruct (parseInt (number1 c)) as [z1|]; [|discriminate].
  destruct (parseInt (number2 c)) as [z2|]; [|discriminate].
  destruct (Z.ltb_spec z1 0); [discriminate|].
  destruct (Z.ltb_spec z2 0); [discriminate|]. cbn [orb].
  destruct (textureLoadedState c) eqn:Hf; [|discriminate].
  intros _. specialize (Hflag eq_refl).
  exists (Z.to_nat z1), (Z.to_nat z2). rewrite !Z2Nat.id by assumption.
  cbn [fst withRefs refs].
  pose proof (addShapes_layout true (Z.to_nat z1) (Z.to_nat z2) _ Hflag) as Hlay.
  repeat (split; [reflexivity || assumption|]).
  apply (f_equal (@length _)) in Hlay. unfold layoutOf, computeLayout in Hlay.
  now rewrite !length_map, length_seq in Hlay.
Qed.

Lemma click_shows_parsed_sum_witness :
  exists num1 num2,
    parseInt (number1 (setNumber1 [Dig d1; Dig d2] shownComponent)) = Some (Z.of_nat num1) /\
    parseInt (number2 (setNumber1 [Dig d1; Dig d2] shownComponent)) = Some (Z.of_nat num2) /\
    length (shapeMeshesRef
              (refs (fst (handleVisualizeClick (setNumber1 [Dig d1; Dig d2] shownComponent)))))
    = num1 + num2.
Proof.
  assert (Hc : creachable (setNumber1 [Dig d1; Dig d2] shownComponent)).
  { eapply creach_step; [apply afterSecondLoad_creachable | apply cstep_set1]. }
  destruct (click_shows_parsed_sum _ Hc eq_refl)
    as (num1 & num2 & H1 & H2 & _ & _ & _ & Hlen).
  exists num1, num2. auto.
Defined.

(** The load callback of a render made while the texture flag was down
    raises the flag and stores the texture but draws nothing, whatever the
    operands: its [addShapesForEquation] still sees the flag down and stops
    at the guard, after clearing.  The callback of a render made with the
    flag up draws the layout of the two numbers it was given. *)
Theorem stale_load_callback_draws_nothing v1 v2 tex c :
  creachable c ->
  sceneRef (refs c) <> None ->
  shapeMeshesRef (refs (loaderOnLoad false v1 v2 tex c)) = [] /\
  textureRef (refs (loaderOnLoad false v1 v2 tex c)) = Some tex /\
  textureLoadedState (loaderOnLoad false v1 v2 tex c) = true /\
  forall a b,
    layoutOf (refs (loaderOnLoad true (OpNumber a) (OpNumber b) tex c)) =
    computeLayout a b.
Proof.
  intros Hc Hsc.
  assert (HI : Inv (onTextureLoad tex (refs c))).
  { apply Inv_onTextureLoad, reachable_Inv. now apply creachable_reachable. }
  cbn [loaderOnLoad refs textureLoadedState].
  split; [|split; [|split; [reflexivity|]]].
  - rewrite addShapesOf_as_numbers, addShapes_not_ready by apply ready_false.
    now apply clearShapes_empty.
  - rewrite addShapesOf_as_numbers, addShapes_not_ready by apply ready_false.
    unfold clearShapes. now destruct (sceneRef (onTextureLoad tex (refs c))).
  - intros a b. rewrite addShapesOf_numbers. apply addShapes_layout.
    apply ready_true_inv. cbn [onTextureLoad sceneRef textureRef].
    split; [assumption | discriminate].
Qed.

Lemma stale_load_callback_draws_nothing_witness :
  shapeMeshesRef (refs (loaderOnLoad false (OpNumber 7) (OpNumber 9)
                          (mkTexture "/NEWPIC.jpg") shownComponent)) = [].
Proof.
  apply (stale_load_callback_draws_nothing (OpNumber 7) (OpNumber 9)
           (mkTexture "/NEWPIC.jpg") shownComponent).
  - apply afterSecondLoad_creachable.
  - discriminate.
Defined.

(** The first mount.  The load started by the first render ends with the
    flag raised, the texture stored and no cube drawn.  From there the
    default sum 7 + 9 is drawn, as sixteen cubes, by the load callback of
    the effect run again, and also, before that load has ended, by a click
    on the button. *)
Theorem first_mount_schedule tex tex' :
  creachable (afterSecondLoad tex tex') /\
  textureLoadedState (afterFirstLoad tex) = true /\
  textureRef (refs (afterFirstLoad tex)) = Some tex /\
  shapeMeshesRef (refs (afterFirstLoad tex)) = [] /\
  layoutOf (refs (afterSecondLoad tex tex')) = computeLayout 7 9 /\
  length (shapeMeshesRef (refs (afterSecondLoad tex tex'))) = 16 /\
  shapeMeshesRef (refs (runEffect (afterFirstLoad tex))) = [] /\
  snd (handleVisualizeClick (runEffect (afterFirstLoad tex))) = None /\
  layoutOf (refs (fst (handleVisualizeClick (runEffect (afterFirstLoad tex))))) =
    computeLayout 7 9.
Proof.
  split; [apply afterSecondLoad_creachable|].
  split; [reflexivity|]. split; [reflexivity|]. split; [reflexivity|].
  assert (Hr : forall t, ready true (onTextureLoad t (refs (runEffect (afterFirstLoad tex))))
                         = true) by reflexivity.
  assert (Hr' : ready true (refs (runEffect (afterFirstLoad tex))) = true) by reflexivity.
  assert (Hclick : handleVisualizeClick (runEffect (afterFirstLoad tex)) =
            (withRefs (addShapesForEquation true 7 9
                         (refs (runEffect (afterFirstLoad tex))))
               (runEffect (afterFirstLoad tex)), None)).
  { unfold handleVisualizeClick.
    change (number1 (runEffect (afterFirstLoad tex))) with (OpNumber 7).
    change (number2 (runEffect (afterFirstLoad tex))) with (OpNumber 9).
    rewrite !parseInt_number. reflexivity. }
  split; [|split; [|split; [reflexivity|]]].
  - change (refs (afterSecondLoad tex tex')) with
      (addShapesForEquationOf true (OpNumber 7) (OpNumber 9)
         (onTextureLoad tex' (refs (runEffect (afterFirstLoad tex))))).
    rewrite addShapesOf_numbers. now apply addShapes_layout.
  - change (refs (afterSecondLoad tex tex')) with
      (addShapesForEquationOf true (OpNumber 7) (OpNumber 9)
         (onTextureLoad tex' (refs (runEffect (afterFirstLoad tex))))).
    rewrite addShapesOf_numbers.
    destruct (addShapes_meshes true 7 9 _ (Hr tex')) as (t & _ & ->).
    apply newShapes_length.
  - rewrite Hclick. cbn [fst snd withRefs refs].
    split; [reflexivity|]. now apply addShapes_layout.
Qed.

Lemma addShapesOf_digits_length tl v1 v2 ds1 ds2 st :
  ready tl st = true ->
  toString v1 = map Dig ds1 ->
  toString v2 = map Dig ds2 ->
  (exists s, v1 = OpString s) \/ (exists s, v2 = OpString s) ->
  length (shapeMeshesRef (addShapesForEquationOf tl v1 v2 st)) =
    digitsValue 0 ds1 * 10 ^ length ds2 + digitsValue 0 ds2.
Proof.
  intros Hr H1 H2 Hstr.
  destruct (countBelow_concat _ _ _ _ H1 H2 Hstr) as [Hn1 HT].
  rewrite addShapesOf_as_numbers, Hn1, HT.
  destruct (addShapes_meshes tl
              (Nat.min (digitsValue 0 ds1)
                 (digitsValue 0 ds1 * 10 ^ length ds2 + digitsValue 0 ds2))
              (digitsValue 0 ds1 * 10 ^ length ds2 + digitsValue 0 ds2
               - Nat.min (digitsValue 0 ds1)
                   (digitsValue 0 ds1 * 10 ^ length ds2 + digitsValue 0 ds2))
              st Hr) as (tex & _ & ->).
  rewrite newShapes_length. lia.
Qed.

(** Once both fields hold typed digits, the two ways to a new layout
    disagree.  The button draws the sum of the two numbers.  The change of a
    field, which makes the effect run again and its load callback call
    [addShapesForEquation] on the fields as they are, draws as many cubes as
    the two strings of digits written one after the other say; that is more
    than the sum as soon as the first number is not 0. *)
Theorem typing_and_clicking_disagree c ds1 ds2 tex :
  creachable c ->
  textureLoadedState c = true ->
  number1 c = OpString (map Dig ds1) ->
  number2 c = OpString (map Dig ds2) ->
  ds1 <> [] -> ds2 <> [] ->
  length (shapeMeshesRef (refs (fst (handleVisualizeClick c)))) =
    digitsValue 0 ds1 + digitsValue 0 ds2 /\
  length (shapeMeshesRef
            (refs (loaderOnLoad true (number1 c) (number2 c) tex (runEffect c)))) =
    digitsValue 0 ds1 * 10 ^ length ds2 + digitsValue 0 ds2 /\
  (0 < digitsValue 0 ds1 ->
   digitsValue 0 ds1 + digitsValue 0 ds2 <
   digitsValue 0 ds1 * 10 ^ length ds2 + digitsValue 0 ds2).
Proof.
  intros Hc Hf H1 H2 Hne1 Hne2.
  pose proof (creachable_flag _ Hc Hf) as Hr.
  split; [|split].
  - unfold handleVisualizeClick, parseInt. rewrite H1, H2. cbn [toString].
    rewrite !parseIntString_digits by assumption.
    destruct (Z.ltb_spec (Z.of_nat (digitsValue 0 ds1)) 0); [lia|].
    destruct (Z.ltb_spec (Z.of_nat (digitsValue 0 ds2)) 0); [lia|].
    cbn [orb]. rewrite Hf. cbn [fst withRefs refs]. rewrite !Nat2Z.id.
    destruct (addShapes_meshes true (digitsValue 0 ds1) (digitsValue 0 ds2) _ Hr)
      as (t & _ & ->).
    apply newShapes_length.
  - cbn [loaderOnLoad refs]. rewrite H1, H2.
    apply addShapesOf_digits_length; [|reflexivity|reflexivity|left; now eexists].
    apply ready_true_inv. cbn [onTextureLoad sceneRef textureRef].
    split; discriminate.
  - intros Hpos. destruct ds2 as [|d ds2]; [congruence|].
    cbn [length Nat.pow]. pose proof (Nat.pow_nonzero 10 (length ds2)). nia.
Qed.

Lemma typing_and_clicking_disagree_witness :
  length (shapeMeshesRef
            (refs (fst (handleVisualizeClick
                          (setNumber2 [Dig d9] (setNumber1 [Dig d1; Dig d2] shownComponent))))))
  = 12 + 9 /\
  length (shapeMeshesRef
            (refs (loaderOnLoad true (OpString [Dig d1; Dig d2]) (OpString [Dig d9])
                     (mkTexture "/NEWPIC.jpg")
                     (runEffect
                        (setNumber2 [Dig d9] (setNumber1 [Dig d1; Dig d2] shownComponent))))))
  = 129.
Proof.
  assert (Hc : creachable (setNumber2 [Dig d9] (setNumber1 [Dig d1; Dig d2] shownComponent))).
  { eapply creach_step;
      [eapply creach_step; [apply afterSecondLoad_creachable | apply cstep_set1]
      | apply cstep_set2]. }
  destruct (typing_and_clicking_disagree _ [d1; d2] [d9] (mkTexture "/NEWPIC.jpg")
              Hc eq_refl eq_refl eq_refl) as (Hclick & Hload & _);
    [discriminate | discriminate |].
  split; [exact Hclick | exact Hload].
Defined.

Lemma allDigits_Minus s : In Minus s -> allDigits s = None.
Proof.
  induction s as [|x s IH]; [contradiction|].
  intros [->|Hin]; [reflexivity|].
  destruct x; [reflexivity|]. cbn. now rewrite IH.
Qed.

Lemma countBelow_Minus s : In Minus s -> countBelow (stringToNumber s) = 0.
Proof.
  intros Hin. destruct s as [|[|d] rest]; [contradiction| |].
  - unfold stringToNumber. destruct (allDigits rest) as [[|d ds]|]; try reflexivity.
    cbn [countBelow]. lia.
  - destruct Hin as [Hin|Hin]; [discriminate|].
    unfold stringToNumber. change (allDigits (Dig d :: rest)) with
      (option_map (cons d) (allDigits rest)).
    now rewrite (allDigits_Minus _ Hin).
Qed.

Lemma numberToString_no_Minus n : ~ In Minus (numberToString n).
Proof.
  unfold numberToString. rewrite in_map_iff. intros (d & Hd & _). discriminate.
Qed.

(** Within the alphabet of the model, a minus sign anywhere in the two
    strings put together makes the total negative or not a number. *)
Lemma minus_sign_no_cubes tl v1 v2 st :
  reachable st ->
  In Minus (toString v1 ++ toString v2) ->
  shapeMeshesRef (addShapesForEquationOf tl v1 v2 st) = [] /\
  forall sc, sceneRef (addShapesForEquationOf tl v1 v2 st) = Some sc ->
             sceneMeshes sc = [].
Proof.
  intros Hreach Hin.
  assert (HT : countBelow (toNumber (jsPlus v1 v2)) = 0).
  { assert (Hplus : jsPlus v1 v2 = OpString (toString v1 ++ toString v2)).
    { destruct v1 as [a|s1], v2 as [b|s2]; try reflexivity.
      exfalso. cbn [toString] in Hin. apply in_app_or in Hin.
      destruct Hin as [H|H]; now apply numberToString_no_Minus in H. }
    rewrite Hplus. cbn [toNumber]. now apply countBelow_Minus. }
  pose proof (reachable_Inv _ Hreach) as HI.
  assert (HI' : Inv (addShapesForEquationOf tl v1 v2 st)).
  { rewrite addShapesOf_as_numbers. now apply Inv_addShapes. }
  assert (He : shapeMeshesRef (addShapesForEquationOf tl v1 v2 st) = []).
  { rewrite addShapesOf_as_numbers, HT, Nat.min_0_r. cbn [Nat.sub].
    destruct (ready tl st) eqn:Hr.
    - destruct (addShapes_meshes _ 0 0 _ Hr) as (tex & _ & ->). reflexivity.
    - rewrite (addShapes_not_ready _ _ _ _ Hr). now apply clearShapes_empty. }
  split; [exact He|].
  intros sc Hsc. unfold Inv in HI'. rewrite Hsc, He in HI'. apply HI'.
Qed.

(** A field that reaches [addShapesForEquation] unparsed and holds a
    negative integer as typed, a minus sign followed by digits, the other
    field holding a number, digits, or a negative integer as well, makes the
    total negative or not a number: the loop does not run, and the call
    leaves the scene without a cube and without an alert. *)
Theorem negative_field_empties_scene tl v1 v2 ds1 ds2 st :
  reachable st ->
  (toString v1 = Minus :: map Dig ds1 /\
   (toString v2 = map Dig ds2 \/ toString v2 = Minus :: map Dig ds2)) \/
  ((toString v1 = map Dig ds1 \/ toString v1 = Minus :: map Dig ds1) /\
   toString v2 = Minus :: map Dig ds2) ->
  shapeMeshesRef (addShapesForEquationOf tl v1 v2 st) = [] /\
  forall sc, sceneRef (addShapesForEquationOf tl v1 v2 st) = Some sc ->
             sceneMeshes sc = [].
Proof.
  intros Hreach Hneg. apply minus_sign_no_cubes; [exact Hreach|].
  apply in_or_app.
  destruct Hneg as [[H1 _]|[_ H2]].
  - left. rewrite H1. now left.
  - right. rewrite H2. now left.
Qed.

Lemma negative_field_empties_scene_witness :
  shapeMeshesRef
    (addShapesForEquationOf true (OpNumber 7) (OpString [Minus; Dig d9]) shownState) = [].
Proof.
  apply (negative_field_empties_scene true (OpNumber 7) (OpString [Minus; Dig d9])
           [d7] [d9] shownState).
  - apply shownState_reachable.
  - right. split; [left; reflexivity | reflexivity].
Defined.
